(** * Verification of [src/fdm/fdm3t.py]: transient 3D finite-difference model

    Shallow embedding of the solver [fdm3t] and of the constructor
    [Fdm3t.__init__].  A float64 value is modelled as an exact real, NaN,
    or a signed infinity, with the IEEE rules for the non-finite values
    (rounding and overflow are not modelled).  Conductances and the system
    matrix [A] are finite in the code and are reals here; the head, flow
    and storage arrays of the time loop are floats.  The sparse solver
    [scipy.sparse.linalg.spsolve] is a parameter of the development; where
    a property depends on it, the theorem assumes that it returned an exact
    solution of the reduced system it was given. *)

From Stdlib Require Import Reals Lra Lia List Bool Arith ZArith String.
From Stdlib Require Import FunctionalExtensionality.
Import ListNotations.

Open Scope R_scope.

(** ** Numbers *)

(** A float64 value: a finite number, NaN, or an infinity ([neg = true]
    for [-inf]).  Zeros are unsigned; a zero divisor is read as [+0.0],
    which is what [np.diff] gives for two equal times. *)
Inductive fl : Type :=
| Fin (r : R)
| NaN
| Inf (neg : bool).

(** The value of a finite float (0 for NaN and infinities). *)
Definition fval (v : fl) : R :=
  match v with Fin r => r | _ => 0 end.

(** Comparisons of reals, as the float comparisons [r == 0] and [r < 0]. *)
Definition is_zero (r : R) : bool := if Req_EM_T r 0 then true else false.
Definition is_neg (r : R) : bool := if Rlt_dec r 0 then true else false.

(** IEEE negation, addition, subtraction, multiplication and division. *)
Definition fneg (a : fl) : fl :=
  match a with Fin x => Fin (- x) | NaN => NaN | Inf s => Inf (negb s) end.

Definition fadd (a b : fl) : fl :=
  match a, b with
  | Fin x, Fin y => Fin (x + y)
  | NaN, _ | _, NaN => NaN
  | Inf s, Inf s' => if Bool.eqb s s' then Inf s else NaN
  | Inf s, Fin _ | Fin _, Inf s => Inf s
  end.

Definition fsub (a b : fl) : fl := fadd a (fneg b).

Definition fmul (a b : fl) : fl :=
  match a, b with
  | Fin x, Fin y => Fin (x * y)
  | NaN, _ | _, NaN => NaN
  | Inf s, Inf s' => Inf (xorb s s')
  | Inf s, Fin y | Fin y, Inf s => if is_zero y then NaN else Inf (xorb s (is_neg y))
  end.

Definition fdiv (a b : fl) : fl :=
  match a, b with
  | Fin x, Fin y =>
      if is_zero y then (if is_zero x then NaN else Inf (is_neg x)) else Fin (x / y)
  | NaN, _ | _, NaN => NaN
  | Inf _, Inf _ => NaN
  | Inf s, Fin y => Inf (xorb s (is_neg y))
  | Fin _, Inf _ => Fin 0
  end.

(** [v != 0]: whether a sparse operation stores the entry [v]. *)
Definition fnz (v : fl) : bool :=
  match v with Fin r => negb (is_zero r) | _ => true end.

(** A flow resistance: finite, or [np.inf] for inactive cells. *)
Inductive ext : Type :=
| EFin (r : R)
| EInf.

(** [1 / (r1 + r2)] in float arithmetic: [1/inf = 0]. *)
Definition inv_sum (r1 r2 : ext) : R :=
  match r1, r2 with
  | EFin a, EFin b => / (a + b)
  | _, _ => 0
  end.

(** [sum_to n f = f 0 + ... + f (n-1)]: a dense sum over [n] cells. *)
Fixpoint sum_to (n : nat) (f : nat -> R) : R :=
  match n with
  | O => 0
  | S k => sum_to k f + f k
  end.

(** The same sum in float arithmetic, from [0.0].  With exact finite sums
    the result does not depend on the order of the terms: it is NaN when a
    term is NaN or both infinities occur, an infinity when only that one
    occurs, and the exact sum otherwise. *)
Fixpoint fsum_to (n : nat) (f : nat -> fl) : fl :=
  match n with
  | O => Fin 0
  | S k => fadd (fsum_to k f) (f k)
  end.

(** Sum of [f] over the elements of a list. *)
Fixpoint lsum {A : Type} (l : list A) (f : A -> R) : R :=
  match l with
  | [] => 0
  | a :: l' => f a + lsum l' f
  end.

(** ** Cell numbering of the grid ([gr.NOD]) *)

(** [gr.NOD = np.arange(nod).reshape((nz, ny, nx))]: C-order numbering. *)
Definition node (ny nx z y x : nat) : nat := ((z * ny + y) * nx + x)%nat.

(** Inverse of [node]: the (layer, row, column) of cell number [i]. *)
Definition dec (ny nx i : nat) : nat * nat * nat :=
  (i / nx / ny, (i / nx) mod ny, i mod nx)%nat.

(** All (z, y, x) of an array of shape (a, b, c), in C order (the order of
    [ravel]). *)
Definition cells3 (a b c : nat) : list (nat * nat * nat) :=
  flat_map (fun z => flat_map (fun y => map (fun x => (z, y, x)) (seq 0 c))
                              (seq 0 b)) (seq 0 a).

(** ** System matrix assembly (lines 127-143) *)

(** [sp.csc_matrix((data, (rows, cols)), (N, N))] built from COO triples:
    entry (i, j) is the sum of the data of all triples at (i, j); duplicate
    triples are added, as scipy does when converting COO input. *)
Fixpoint coo_entry (l : list (nat * nat * R)) (i j : nat) : R :=
  match l with
  | [] => 0
  | (r, c, d) :: l' => (if (r =? i) && (c =? j) then d else 0) + coo_entry l' i j
  end.

Section Assembly.
(** Grid shape and conductance arrays: [Cx] has shape (nz, ny, nx-1),
    [Cy] shape (nz, ny-1, nx), [Cz] shape (nz-1, ny, nx). *)
Variables (nz ny nx : nat).
Variables (Cx Cy Cz : nat -> nat -> nat -> R).

Let nd := node ny nx.

(** The six blocks of the COO triples, in the order of lines 138-140:
    data [R(Cx), R(Cx), R(Cy), R(Cy), R(Cz), R(Cz)], rows
    [R(IE), R(IW), R(IN), R(IS), R(IB), R(IT)] and columns
    [R(IW), R(IE), R(IS), R(IN), R(IT), R(IB)], where
    [IW = NOD[:,:,:-1]], [IE = NOD[:,:,1:]], [IN = NOD[:,:-1,:]],
    [IS = NOD[:,1:,:]], [IT = NOD[:-1,:,:]], [IB = NOD[1:,:,:]]. *)
Definition blk_EW : list (nat * nat * R) :=
  map (fun '(z, y, x) => (nd z y (S x), nd z y x, Cx z y x)) (cells3 nz ny (nx - 1)).
Definition blk_WE : list (nat * nat * R) :=
  map (fun '(z, y, x) => (nd z y x, nd z y (S x), Cx z y x)) (cells3 nz ny (nx - 1)).
Definition blk_NS : list (nat * nat * R) :=
  map (fun '(z, y, x) => (nd z y x, nd z (S y) x, Cy z y x)) (cells3 nz (ny - 1) nx).
Definition blk_SN : list (nat * nat * R) :=
  map (fun '(z, y, x) => (nd z (S y) x, nd z y x, Cy z y x)) (cells3 nz (ny - 1) nx).
Definition blk_BT : list (nat * nat * R) :=
  map (fun '(z, y, x) => (nd (S z) y x, nd z y x, Cz z y x)) (cells3 (nz - 1) ny nx).
Definition blk_TB : list (nat * nat * R) :=
  map (fun '(z, y, x) => (nd z y x, nd (S z) y x, Cz z y x)) (cells3 (nz - 1) ny nx).

Definition coo_triples : list (nat * nat * R) :=
  blk_EW ++ blk_WE ++ blk_NS ++ blk_SN ++ blk_BT ++ blk_TB.

(** The matrix of line 138, before the sign change. *)
Definition A0 (i j : nat) : R := coo_entry coo_triples i j.

(** Line 143: [A = -A + sp.diags(np.array(A.sum(axis=1)).ravel())]. *)
Definition assemble (i j : nat) : R :=
  - A0 i j + (if i =? j then sum_to (nz * ny * nx) (fun k => A0 i k) else 0).

(** The conductance between cell [i] and cell [j]: the conductance of the
    face of [i] that [j] lies across, and 0 when [j] is not a neighbour
    of [i]. *)
Definition cond (i j : nat) : R :=
  let '(z, y, x) := dec ny nx i in
  if (S x <? nx)%nat && (j =? nd z y (S x)) then Cx z y x
  else if (0 <? x)%nat && (j =? nd z y (x - 1)) then Cx z y (x - 1)
  else if (S y <? ny)%nat && (j =? nd z (S y) x) then Cy z y x
  else if (0 <? y)%nat && (j =? nd z (y - 1) x) then Cy z (y - 1) x
  else if (S z <? nz)%nat && (j =? nd (S z) y x) then Cz z y x
  else if (0 <? z)%nat && (j =? nd (z - 1) y x) then Cz (z - 1) y x
  else 0.
End Assembly.

(** ** The grid object (external collaborator [gr]) *)

(** The geometry that [fdm3t] reads from [gr].  Grid-shaped arrays
    ([gr.DZ], [gr.Volume]) are given by their flat C-order data. *)
Record grid : Type := mkGrid {
  nz : nat;  ny : nat;  nx : nat;
  axial : bool;
  dx : nat -> R;        (** [gr.dx], column widths, length nx *)
  dy : nat -> R;        (** [gr.dy], row widths, length ny *)
  DZ : nat -> R;        (** [gr.DZ], layer thickness per cell *)
  Volume : nat -> R;    (** [gr.Volume], per cell *)
  gx : nat -> R;        (** [gr.x], column boundaries (radii), length nx+1 *)
  xm : nat -> R         (** [gr.xm], column centres *)
}.

Definition nod (gr : grid) : nat := (nz gr * ny gr * nx gr)%nat.
Definition gshape (gr : grid) : list nat := [nz gr; ny gr; nx gr].
Definition NOD (gr : grid) : nat -> nat -> nat -> nat := node (ny gr) (nx gr).

(** Boundary classification of lines 87-89. *)
Definition active (IB : nat -> Z) (i : nat) : bool := (0 <? IB i)%Z.
Definition inact (IB : nat -> Z) (i : nat) : bool := (IB i =? 0)%Z.
Definition fxhd (IB : nat -> Z) (i : nat) : bool := (IB i <? 0)%Z.

(** ** Half-cell resistances and conductances (lines 95-121) *)

Section Resistances.
Variable gr : grid.
Variables (kx ky kz : nat -> R) (IB : nat -> Z).
(** The copy of [gr.x] used in the logarithms of the axial formulas. *)
Variable xl : nat -> R.

Let nd := NOD gr.

(** Lines 111-116: resistance of an inactive cell set to [np.inf]. *)
Definition mask_inact (z y x : nat) (r : R) : ext :=
  if inact IB (nd z y x) then EInf else EFin r.

Definition Rx1 (z y x : nat) : ext :=
  mask_inact z y x
    (if axial gr
     then 1 / (2 * PI * kx (nd z y x) * DZ gr (nd z y x)) * ln (xl (S x) / xm gr x)
     else 0.5 * dx gr x / (dy gr y * DZ gr (nd z y x)) / kx (nd z y x)).

(** In Cartesian mode [Rx2 = Rx1] is the same array. *)
Definition Rx2 (z y x : nat) : ext :=
  if axial gr
  then mask_inact z y x
         (1 / (2 * PI * kx (nd z y x) * DZ gr (nd z y x)) * ln (xm gr x / xl x))
  else Rx1 z y x.

(** [Ry2 = Ry1]. *)
Definition Ry1 (z y x : nat) : ext :=
  if axial gr then EInf
  else mask_inact z y x (0.5 * dy gr y / (DZ gr (nd z y x) * dx gr x) / ky (nd z y x)).

(** [Rz2 = Rz1]. *)
Definition Rz1 (z y x : nat) : ext :=
  mask_inact z y x
    (if axial gr
     then 0.5 * DZ gr (nd z y x) / (PI * (gx gr (S x) ^ 2 - gx gr x ^ 2) * kz (nd z y x))
     else 0.5 * DZ gr (nd z y x) / (dx gr x * dy gr y) / kz (nd z y x)).

(** Lines 119-121. *)
Definition Cx_of (z y x : nat) : R := inv_sum (Rx1 z y (S x)) (Rx2 z y x).
Definition Cy_of (z y x : nat) : R := inv_sum (Ry1 z (S y) x) (Ry1 z y x).
Definition Cz_of (z y x : nat) : R := inv_sum (Rz1 (S z) y x) (Rz1 z y x).

(** The system matrix of line 143 for this grid. *)
Definition A_of : nat -> nat -> R :=
  assemble (nz gr) (ny gr) (nx gr) Cx_of Cy_of Cz_of.
End Resistances.

(** [gr.x] with its first entry replaced by [p]. *)
Definition xcopy (gr : grid) (p : R) (i : nat) : R :=
  if (i =? 0)%nat then p else gx gr i.

(** Line 103: [x = gr.x.copy(); x[0] = x[0] if x[0]>0 else 0.1* x[1]]. *)
Definition x_guarded (gr : grid) : nat -> R :=
  xcopy gr (if Rlt_dec 0 (gx gr 0) then gx gr 0 else 0.1 * gx gr 1).

(** Line 124: [Cs = (Ss * gr.Volume / epsilon).ravel()]. *)
Definition Cs_of (gr : grid) (Ss : nat -> R) (epsilon : R) (i : nat) : fl :=
  fdiv (Fin (Ss i * Volume gr i)) (Fin epsilon).

(** [np.diff(t)]. *)
Fixpoint diffs (t : list R) : list R :=
  match t with
  | a :: ((b :: _) as tl) => (b - a) :: diffs tl
  | _ => []
  end.

(** ** Time stepping (lines 145-189) *)

(** The results of one time step [idt]. *)
Record step_out : Type := mkStep {
  s_Phi : nat -> fl;                   (** [Phi[it]], after line 189 *)
  s_Q : nat -> fl;                     (** [Q[idt]] *)
  s_Qs : nat -> fl;                    (** [Qs[idt]] *)
  s_Qx : nat -> nat -> nat -> fl;      (** [Qx[idt]] *)
  s_Qy : nat -> nat -> nat -> fl;      (** [Qy[idt]] *)
  s_Qz : nat -> nat -> nat -> fl       (** [Qz[idt]] *)
}.

(** The dictionary returned by [fdm3t] (arrays given by their flat data). *)
Record output : Type := mkOut {
  o_t : list R;
  o_Phi : list (nat -> fl);
  o_Q : list (nat -> fl);
  o_Qs : list (nat -> fl);
  o_Qx : list (nat -> nat -> nat -> fl);
  o_Qy : list (nat -> nat -> nat -> fl);
  o_Qz : list (nat -> nat -> nat -> fl)
}.

(** [x] solves the reduced system [M[act][:,act] x = b[act]] (a real
    matrix and real vectors). *)
Definition solves (n : nat) (act : nat -> bool) (M : nat -> nat -> R)
    (b x : nat -> R) : Prop :=
  forall i, (i < n)%nat -> act i = true ->
    sum_to n (fun j => if act j then M i j * x j else 0) = b i.

Section Solver.
(** [spsolve n act M b]: the solution, on the cells [i < n] with
    [act i = true], of the reduced system [M[act][:,act] x = b[act]]. *)
Variable spsolve : nat -> (nat -> bool) -> (nat -> nat -> fl) -> (nat -> fl) -> nat -> fl.

Section Step.
Variables (nz ny nx : nat).
Variable A : nat -> nat -> R.
Variables (Cx Cy Cz : nat -> nat -> nat -> R).
Variable Cs : nat -> fl.
Variable FQ : nat -> R.
Variable IB : nat -> Z.
Variable epsilon : R.

Let N := (nz * ny * nx)%nat.
Let nd := node ny nx.

(** [A + sp.diags(Cs / dt)]: [Cs / dt] is added on the diagonal. *)
Definition Mdt (dt : R) (i j : nat) : fl :=
  if (i =? j)%nat then fadd (Fin (A i j)) (fdiv (Cs i) (Fin dt)) else Fin (A i j).

(** Line 170: [RHS = FQ - (A + sp.diags(Cs / dt))[:,fxhd].dot(Phi[it-1][fxhd])].
    The sum of a sparse product runs over the stored entries, those that
    are not 0 (scipy's sum of two sparse matrices drops zero results). *)
Definition RHS (dt : R) (old : nat -> fl) (i : nat) : fl :=
  fsub (Fin (FQ i))
    (fsum_to N (fun j => if fxhd IB j && fnz (Mdt dt i j) then fmul (Mdt dt i j) (old j)
                         else Fin 0)).

(** Line 172: the matrix [(A + sp.diags(Cs / dt))[active][:,active]] ... *)
Definition Maa (dt : R) (i j : nat) : fl :=
  if active IB i && active IB j then Mdt dt i j else Fin 0.

(** ... and the vector [RHS[active] + Cs[active] / dt * Phi[it-1][active]]
    (given on the [N] cells, 0 elsewhere). *)
Definition baa (dt : R) (old : nat -> fl) (i : nat) : fl :=
  if active IB i && (i <? N)%nat
  then fadd (RHS dt old i) (fmul (fdiv (Cs i) (Fin dt)) (old i))
  else Fin 0.

(** [Phi[it]] after line 172: zero (from [np.zeros]) except at active cells. *)
Definition provisional (dt : R) (old : nat -> fl) (i : nat) : fl :=
  if active IB i then spsolve N (active IB) (Maa dt) (baa dt old) i else Fin 0.

(** One pass of the loop body, lines 167-189. *)
Definition step (dt : R) (old : nat -> fl) : step_out :=
  let p := provisional dt old in
  {| s_Phi := fun i =>
       if inact IB i then NaN
       else if fxhd IB i then old i
       else if active IB i then fadd (old i) (fdiv (fsub (p i) (old i)) (Fin epsilon))
       else p i;
     s_Q := fun i =>
       fsum_to N (fun j => if is_zero (A i j) then Fin 0 else fmul (Fin (A i j)) (p j));
     s_Qs := fun i => fmul (fdiv (fneg (Cs i)) (Fin dt)) (fsub (p i) (old i));
     s_Qx := fun z y x => fmul (fneg (fsub (p (nd z y (S x))) (p (nd z y x)))) (Fin (Cx z y x));
     s_Qy := fun z y x => fmul (fsub (p (nd z (S y) x)) (p (nd z y x))) (Fin (Cy z y x));
     s_Qz := fun z y x => fmul (fsub (p (nd (S z) y x)) (p (nd z y x))) (Fin (Cz z y x)) |}.

(** The loop [for idt, dt in enumerate(np.diff(t))]. *)
Fixpoint run (old : nat -> fl) (dts : list R) : list step_out :=
  match dts with
  | [] => []
  | dt :: dts' => let s := step dt old in s :: run (s_Phi s) dts'
  end.
End Step.

(** [fdm3t] from line 87 on, on the raveled input arrays. *)
Definition fdm3t_core (gr : grid) (t : list R) (kx ky kz Ss FQ HI : nat -> R)
    (IB : nat -> Z) (epsilon : R) : output :=
  let xl := x_guarded gr in
  let Cx := Cx_of gr kx IB xl in
  let Cy := Cy_of gr ky IB in
  let Cz := Cz_of gr kz IB in
  let A := assemble (nz gr) (ny gr) (nx gr) Cx Cy Cz in
  let Cs := Cs_of gr Ss epsilon in
  let Phi0 := fun i => Fin (HI i) in
  let steps := run (nz gr) (ny gr) (nx gr) A Cx Cy Cz Cs FQ IB epsilon Phi0 (diffs t) in
  {| o_t := t;
     o_Phi := Phi0 :: map s_Phi steps;
     o_Q := map s_Q steps;
     o_Qs := map s_Qs steps;
     o_Qx := map s_Qx steps;
     o_Qy := map s_Qy steps;
     o_Qz := map s_Qz steps |}.

(** ** Entry points, with the caller's arrays in a heap *)

(** A numpy float array object: its shape and its flat C-order data. *)
Record ndarray : Type := mkArr { shape : list nat; data : nat -> R }.

(** The caller's float arrays, by object identity: an argument is a
    location, and two arguments naming the same location alias. *)
Definition heap : Type := nat -> ndarray.

Definition upd (h : heap) (l : nat) (a : ndarray) : heap :=
  fun l' => if (l' =? l)%nat then a else h l'.

(** The integer array [IBOUND]; the code only reads it. *)
Record iarray : Type := mkIArr { ishape : list nat; idata : nat -> Z }.

(** The argument [kxyz]: one array, a tuple or a list of arrays. *)
Inductive karg : Type :=
| KArr (l : nat)
| KTuple (ls : list nat)
| KList (ls : list nat).

(** Python exceptions, with (the start of) their messages. *)
Inductive pyerr : Type :=
| AssertionError (msg : string)
| ValueError (msg : string)
| AttributeError (msg : string)
| IndexError (msg : string).

(** [a.size]. *)
Definition size (s : list nat) : nat := fold_right Nat.mul 1%nat s.

(** Tuple comparison [s1 == s2]. *)
Fixpoint shape_eqb (s1 s2 : list nat) : bool :=
  match s1, s2 with
  | [], [] => true
  | a :: s1', b :: s2' => (a =? b)%nat && shape_eqb s1' s2'
  | _, _ => false
  end.

(** Decimal digits of a natural number. *)
Fixpoint digits (fuel n : nat) (acc : string) : string :=
  match fuel with
  | O => acc
  | S f =>
      let acc' := String (Ascii.ascii_of_nat (48 + n mod 10)) acc in
      if (n <? 10)%nat then acc' else digits f (n / 10) acc'
  end.

Definition string_of_nat (n : nat) : string := digits (S n) n EmptyString.

(** Python's [repr] of a shape tuple, e.g. [(1, 1, 2)] or [(2,)]. *)
Definition tuple_repr (s : list nat) : string :=
  match s with
  | [a] => ("(" ++ string_of_nat a ++ ",)")%string
  | _ => ("(" ++ String.concat ", " (map string_of_nat s) ++ ")")%string
  end.

(** Lines 75-81: ["shape of kx {0} differs from that of model {1}"]. *)
Definition shape_msg (name : string) (s g : list nat) : string :=
  ("shape of " ++ name ++ " " ++ tuple_repr s ++ " differs from that of model "
     ++ tuple_repr g)%string.

(** Lines 69-72: [kx, ky, kz = kxyz] for a tuple, else [kx = ky = kz = kxyz]. *)
Definition unpack_kxyz (kxyz : karg) : pyerr + (nat * nat * nat) :=
  match kxyz with
  | KTuple [a; b; c] => inr (a, b, c)
  | KTuple ls =>
      inl (ValueError (if (List.length ls <? 3)%nat then "not enough values to unpack"
                       else "too many values to unpack"))
  | KList _ => inl (AttributeError "'list' object has no attribute 'shape'")
  | KArr a => inr (a, a, a)
  end.

(** Lines 74-81: the first array, in the given order, whose shape differs
    from [gr.shape]. *)
Fixpoint check_shapes (g : list nat) (fields : list (string * list nat)) : option pyerr :=
  match fields with
  | [] => None
  | (name, s) :: fs =>
      if negb (shape_eqb s g) then Some (AssertionError (shape_msg name s g))
      else check_shapes g fs
  end.

(** [kx[kx<1e-20] = 1e-20]. *)
Definition kmin : R := / 10 ^ 20.
Definition clamp_val (v : R) : R := if Rlt_dec v kmin then kmin else v.
Definition clamp (a : ndarray) : ndarray :=
  mkArr (shape a) (fun i => clamp_val (data a i)).

(** Reading a raveled array against a vector of [nod] cells: an array of
    one element broadcasts. *)
Definition broadcastable (a : ndarray) (n : nat) : bool :=
  (size (shape a) =? n)%nat || (size (shape a) =? 1)%nat.
Definition bcast (a : ndarray) (i : nat) : R :=
  if (size (shape a) =? 1)%nat then data a 0 else data a i.

(** [fdm3t(gr, t, kxyz, Ss, FQ, HI, IBOUND, epsilon)]: the result (an
    exception or the output dictionary) and the caller's heap afterwards. *)
Definition fdm3t (h : heap) (gr : grid) (t : list R) (kxyz : karg)
    (Ss FQ HI : nat) (IBOUND : iarray) (epsilon : R) : (pyerr + output) * heap :=
  match unpack_kxyz kxyz with
  | inl e => (inl e, h)
  | inr (lkx, lky, lkz) =>
    match check_shapes (gshape gr)
            [("kx", shape (h lkx)); ("ky", shape (h lky));
             ("kz", shape (h lkz)); ("Ss", shape (h Ss))]%string with
    | Some e => (inl e, h)
    | None =>
      (* lines 83-85, in place on the caller's arrays *)
      let h1 := upd h lkx (clamp (h lkx)) in
      let h2 := upd h1 lky (clamp (h1 lky)) in
      let h3 := upd h2 lkz (clamp (h2 lkz)) in
      let core := fdm3t_core gr t (data (h3 lkx)) (data (h3 lky)) (data (h3 lkz))
                    (data (h3 Ss)) (bcast (h3 FQ)) (bcast (h3 HI)) (idata IBOUND) epsilon in
      (* line 87: [IBOUND.reshape(gr.nod,)] *)
      if negb (size (ishape IBOUND) =? nod gr)%nat
      then (inl (ValueError "cannot reshape array"), h3)
      (* line 103: [x[1]] of the [nx + 1] column boundaries, when [nx = 0] *)
      else if axial gr && (nx gr =? 0)%nat && negb (if Rlt_dec 0 (gx gr 0) then true else false)
      then (inl (IndexError "index 1 is out of bounds for axis 0 with size 1"), h3)
      else match t with
      (* line 148: [np.zeros((Nt, gr.nod))] with [Nt = -1] *)
      | [] => (inl (ValueError "negative dimensions are not allowed"), h3)
      | _ =>
        (* lines 150-152: [gr.nx - 1], [gr.ny - 1] or [gr.nz - 1] is -1 *)
        if (nz gr =? 0)%nat || (ny gr =? 0)%nat || (nx gr =? 0)%nat
        then (inl (ValueError "negative dimensions are not allowed"), h3)
        (* line 158: [Phi[0] = HI] *)
        else if negb (broadcastable (h3 HI) (nod gr))
        then (inl (ValueError "could not broadcast input array"), h3)
        else match diffs t with
        | [] => (inr core, h3)
        | _ =>
          (* first time step, line 172: with one cell, [RHS] has the size of
             [FQ] and [RHS[active]] needs one entry *)
          if (nod gr =? 1)%nat && negb (size (shape (h3 FQ)) =? 1)%nat
          then (inl (IndexError "boolean index did not match indexed array"), h3)
          (* line 170: [FQ - ...] *)
          else if negb (broadcastable (h3 FQ) (nod gr))
          then (inl (ValueError "operands could not be broadcast together"), h3)
          else (inr core, h3)
        end
      end
    end
  end.

(** Lines 250-262: [Kh] and [Kv] from [kxyz]. *)
Definition unpack_KhKv (kxyz : karg) : pyerr + (nat * nat) :=
  let from_seq ls :=
    match ls with
    | [a; _; c] => inr (a, c)
    | [a; b] => inr (a, b)
    | [a] => inr (a, a)
    | _ => inl (ValueError "Can't understand input kxyz, use (Kx, Kz) tuple")
    end in
  match kxyz with
  | KTuple ls => from_seq ls
  | KList ls => from_seq ls
  | KArr a => inr (a, a)
  end.

(** [Fdm3t.__init__(gr, t, kxyz, Ss, FQ, HI, IBOUND, epsilon)]: the value
    stored in [self.out] (or the exception) and the heap afterwards. *)
Definition Fdm3t_init (h : heap) (gr : grid) (t : list R) (kxyz : karg)
    (Ss FQ HI : nat) (IBOUND : iarray) (epsilon : R) : (pyerr + output) * heap :=
  match unpack_KhKv kxyz with
  | inl e => (inl e, h)
  | inr (Kh, Kv) =>
    (* lines 264-268 *)
    if negb (shape_eqb (gshape gr) (shape (h Kh)))
    then (inl (AssertionError "gr.shape != Kh.shape"), h)
    else if negb (shape_eqb (gshape gr) (shape (h Kv)))
    then (inl (AssertionError "gr.shape != Kv.shape"), h)
    else if negb (shape_eqb (gshape gr) (shape (h FQ)))
    then (inl (AssertionError "gr.shape != FQ.shape"), h)
    else if negb (shape_eqb (gshape gr) (shape (h Ss)))
    then (inl (AssertionError "gr.shape != HI.shape"), h)
    else if negb (shape_eqb (gshape gr) (ishape IBOUND))
    then (inl (AssertionError "gr.shape != IBOUND.shape"), h)
    (* lines 280-283 *)
    else fdm3t h gr t (KTuple [Kh; Kh; Kv]) Ss FQ HI IBOUND 1
  end.
End Solver.

(** A solver for reduced systems whose matrix is diagonal, used to run
    the model on small concrete grids: [b[i] / M[i,i]] in float
    arithmetic. *)
Definition spsolve_diag (n : nat) (act : nat -> bool) (M : nat -> nat -> fl)
    (b : nat -> fl) (i : nat) : fl :=
  fdiv (b i) (M i i).

(** The sparse solver returned exact solutions of the reduced systems
    [(A + diags(Cs / dt))[active][:,active] x = b] of every time step of
    [t]: the active entries of the matrix are finite, and for every finite
    right-hand side [b] the solver returns a finite [x] that solves the
    system. *)
Definition exact_for
    (spsolve : nat -> (nat -> bool) -> (nat -> nat -> fl) -> (nat -> fl) -> nat -> fl)
    (gr : grid) (t : list R) (kx ky kz Ss : nat -> R) (IB : nat -> Z) (epsilon : R) : Prop :=
  forall dt, In dt (diffs t) ->
    (forall i j, (i < nod gr)%nat -> (j < nod gr)%nat -> active IB i = true -> active IB j = true ->
       exists m, Maa (A_of gr kx ky kz IB (x_guarded gr)) (Cs_of gr Ss epsilon) IB dt i j = Fin m) /\
    forall b : nat -> R, exists x : nat -> R,
      (forall i, (i < nod gr)%nat -> active IB i = true ->
         spsolve (nod gr) (active IB) (Maa (A_of gr kx ky kz IB (x_guarded gr)) (Cs_of gr Ss epsilon) IB dt)
           (fun j => Fin (b j)) i = Fin (x i)) /\
      solves (nod gr) (active IB)
        (fun i j => fval (Maa (A_of gr kx ky kz IB (x_guarded gr)) (Cs_of gr Ss epsilon) IB dt i j)) b x.

(** ** Small concrete grids *)

(** Unit cells: [dx = dy = DZ = Volume = 1], [x = 0, 1, 2, ...],
    [xm = 0.5, 1.5, ...]. *)
Definition unit_grid (nz ny nx : nat) (axial : bool) : grid :=
  {| nz := nz; ny := ny; nx := nx; axial := axial;
     dx := fun _ => 1; dy := fun _ => 1; DZ := fun _ => 1; Volume := fun _ => 1;
     gx := fun i => INR i; xm := fun i => INR i + / 2 |}.

(** A heap in which every location holds a one-cell array of ones, and an
    all-active [IBOUND] of shape (1, 1, 1). *)
Definition unit_heap : heap := fun _ => mkArr [1; 1; 1]%nat (fun _ => 1).
Definition unit_ibound : iarray := mkIArr [1; 1; 1]%nat (fun _ => 1%Z).

(** ** Stream function, uniqueness and further small inputs *)
(** Elementwise sum of two rows. *)
Fixpoint vadd (a b : list fl) : list fl :=
  match a, b with
  | u :: a', v :: b' => fadd u v :: vadd a' b'
  | _, _ => []
  end.

(** Running sums of [rows], starting from the sum [acc]. *)
Fixpoint cumsum_from (acc : list fl) (rows : list (list fl)) : list (list fl) :=
  match rows with
  | [] => []
  | r :: rs => let a := vadd acc r in a :: cumsum_from a rs
  end.

(** [np.cumsum(rows, axis=0)]: the first row, then the running sums. *)
Definition cumsum0 (rows : list (list fl)) : list (list fl) :=
  match rows with
  | [] => []
  | r :: rs => r :: cumsum_from r rs
  end.

(** [Fdm3t.get_psi] (lines 372-380) on the stored output [self.out]:
    [Qx = out['Qx'][-1][:, 0, :]] is the row [y = 0] of the last time step,
    one row per layer and [nx - 1] columns; a row of zeros is stacked below
    it ([np.zeros_like(Qx[-1:])], no row when [nz = 0]), and the rows are
    summed from the bottom up.  [None] is the [IndexError] of [[-1]] on an
    output with no time step, or of [[:, 0, :]] when [ny = 0]. *)
Definition get_psi (gr : grid) (out : output) : option (list (list fl)) :=
  match rev (o_Qx out) with
  | [] => None
  | q :: _ =>
    if (ny gr =? 0)%nat then None
    else
      let Qx := map (fun z => map (fun x => q z 0%nat x) (seq 0 (nx gr - 1))) (seq 0 (nz gr)) in
      let Zr := map (map (fun _ => Fin 0)) (skipn (List.length Qx - 1) Qx) in
      Some (rev (cumsum0 (rev (Qx ++ Zr))))
  end.

(** The reduced systems [(A + diags(Cs / dt))[active][:,active]] of every
    time step of [t], read as real matrices, have at most one solution. *)
Definition unique_for (gr : grid) (t : list R) (kx ky kz Ss : nat -> R) (IB : nat -> Z)
    (epsilon : R) : Prop :=
  forall dt, In dt (diffs t) -> forall b x1 x2,
    solves (nod gr) (active IB)
      (fun i j => fval (Maa (A_of gr kx ky kz IB (x_guarded gr)) (Cs_of gr Ss epsilon) IB dt i j)) b x1 ->
    solves (nod gr) (active IB)
      (fun i j => fval (Maa (A_of gr kx ky kz IB (x_guarded gr)) (Cs_of gr Ss epsilon) IB dt i j)) b x2 ->
    forall i, (i < nod gr)%nat -> active IB i = true -> x1 i = x2 i.

(** [IBOUND] of a two-cell row: cell 1 inactive, resp. fixed head. *)
Definition IB_hole : nat -> Z := fun i => if (i =? 1)%nat then 0%Z else 1%Z.
Definition IB_fix : nat -> Z := fun i => if (i =? 1)%nat then (-1)%Z else 1%Z.

(** [unit_heap] with a (2, 1, 1) array at location 1. *)
Definition heap_bad_Ss : heap :=
  fun l => if (l =? 1)%nat then mkArr [2; 1; 1]%nat (fun _ => 1) else unit_heap l.

(** [unit_heap] with an array of shape (1,) at location 4. *)
Definition heap_flat_HI : heap :=
  fun l => if (l =? 4)%nat then mkArr [1%nat] (fun _ => 0) else unit_heap l.

(** * Properties *)

(** ** Sums *)

Lemma sum_to_ext n f g :
  (forall k, (k < n)%nat -> f k = g k) -> sum_to n f = sum_to n g.
Proof.
  induction n as [|n IH]; intros H; simpl; [reflexivity|].
  rewrite IH by (intros; apply H; lia). rewrite H by lia. reflexivity.
Qed.

Lemma sum_to_plus n f g :
  sum_to n (fun k => f k + g k) = sum_to n f + sum_to n g.
Proof. induction n as [|n IH]; simpl; [lra|]. rewrite IH. lra. Qed.

Lemma sum_to_opp n f : sum_to n (fun k => - f k) = - sum_to n f.
Proof. induction n as [|n IH]; simpl; [lra|]. rewrite IH. lra. Qed.

Lemma sum_to_scal n a f : sum_to n (fun k => a * f k) = a * sum_to n f.
Proof. induction n as [|n IH]; simpl; [lra|]. rewrite IH. lra. Qed.

Lemma sum_to_zero n : sum_to n (fun _ => 0) = 0.
Proof. induction n as [|n IH]; simpl; [reflexivity|]. rewrite IH. lra. Qed.

(** A sum with a single non-zero term. *)
Lemma sum_to_single n i (c : nat -> R) :
  sum_to n (fun k => if (i =? k)%nat then c k else 0) = if (i <? n)%nat then c i else 0.
Proof.
  induction n as [|n IH]; simpl.
  - destruct i; reflexivity.
  - rewrite IH. destruct (Nat.eqb_spec i n) as [->|Hne].
    + rewrite (proj2 (Nat.ltb_ge n n)) by lia.
      rewrite (proj2 (Nat.ltb_lt n (S n))) by lia. lra.
    + destruct (Nat.ltb_spec i n); destruct (Nat.ltb_spec i (S n)); try lia; lra.
Qed.

Lemma lsum_app {A} (l1 l2 : list A) f : lsum (l1 ++ l2) f = lsum l1 f + lsum l2 f.
Proof. induction l1 as [|a l1 IH]; simpl; [lra|]. rewrite IH. lra. Qed.

Lemma lsum_map {A B} (g : A -> B) l f : lsum (map g l) f = lsum l (fun a => f (g a)).
Proof. induction l as [|a l IH]; simpl; [reflexivity|]. rewrite IH. reflexivity. Qed.

Lemma lsum_flat_map {A B} (g : A -> list B) l f :
  lsum (flat_map g l) f = lsum l (fun a => lsum (g a) f).
Proof. induction l as [|a l IH]; simpl; [reflexivity|]. rewrite lsum_app, IH. reflexivity. Qed.

Lemma lsum_ext_in {A} (l : list A) f g :
  (forall a, In a l -> f a = g a) -> lsum l f = lsum l g.
Proof.
  induction l as [|a l IH]; intros H; simpl; [reflexivity|].
  rewrite H by (left; reflexivity). rewrite IH by (intros; apply H; right; assumption).
  reflexivity.
Qed.

Lemma lsum_zero {A} (l : list A) : lsum l (fun _ => 0) = 0.
Proof. induction l as [|a l IH]; simpl; [reflexivity|]. rewrite IH. lra. Qed.

Lemma lsum_zero_ext {A} (l : list A) f : (forall a, In a l -> f a = 0) -> lsum l f = 0.
Proof. intros H. rewrite (lsum_ext_in l f (fun _ => 0)) by exact H. apply lsum_zero. Qed.

Lemma lsum_seq_single s n x0 (f : nat -> R) :
  lsum (seq s n) (fun x => if (x =? x0)%nat then f x else 0)
  = if (s <=? x0)%nat && (x0 <? s + n)%nat then f x0 else 0.
Proof.
  revert s. induction n as [|n IH]; intros s; simpl.
  - destruct (Nat.leb_spec s x0); destruct (Nat.ltb_spec x0 (s + 0)); simpl; try lia; reflexivity.
  - rewrite IH. destruct (Nat.eqb_spec s x0) as [->|Hne].
    + destruct (Nat.leb_spec (S x0) x0); try lia.
      rewrite Nat.leb_refl. rewrite (proj2 (Nat.ltb_lt x0 (x0 + S n))) by lia. simpl. lra.
    + destruct (Nat.leb_spec (S s) x0); destruct (Nat.leb_spec s x0);
      destruct (Nat.ltb_spec x0 (S s + n)); destruct (Nat.ltb_spec x0 (s + S n));
      simpl; try lia; lra.
Qed.

Lemma lsum_seq0_single n x0 (f : nat -> R) :
  lsum (seq 0 n) (fun x => if (x =? x0)%nat then f x else 0) = if (x0 <? n)%nat then f x0 else 0.
Proof. rewrite lsum_seq_single. reflexivity. Qed.

Lemma in_cells3 a b c z y x : In (z, y, x) (cells3 a b c) -> (z < a /\ y < b /\ x < c)%nat.
Proof.
  unfold cells3. intros H.
  apply in_flat_map in H as [z' [Hz H]]. apply in_flat_map in H as [y' [Hy H]].
  apply in_map_iff in H as [x' [Heq Hx]]. inversion Heq; subst.
  apply in_seq in Hz, Hy, Hx. lia.
Qed.

(** A sum over the cells of an (a, b, c) array with a single non-zero term. *)
Lemma lsum_cells3_single a b c z0 y0 x0 (g : nat -> nat -> nat -> R) :
  lsum (cells3 a b c)
    (fun '(z, y, x) => if (z =? z0)%nat && (y =? y0)%nat && (x =? x0)%nat then g z y x else 0)
  = if (z0 <? a)%nat && (y0 <? b)%nat && (x0 <? c)%nat then g z0 y0 x0 else 0.
Proof.
  unfold cells3. rewrite lsum_flat_map.
  transitivity (lsum (seq 0 a) (fun z => if (z =? z0)%nat then
                  (if (y0 <? b)%nat && (x0 <? c)%nat then g z y0 x0 else 0) else 0)).
  - apply lsum_ext_in. intros z _. rewrite lsum_flat_map.
    transitivity (lsum (seq 0 b) (fun y => if (y =? y0)%nat then
                    (if (z =? z0)%nat then (if (x0 <? c)%nat then g z y x0 else 0) else 0)
                    else 0)).
    + apply lsum_ext_in. intros y _. rewrite lsum_map.
      destruct (Nat.eqb_spec y y0); destruct (Nat.eqb_spec z z0); simpl.
      * transitivity (lsum (seq 0 c) (fun x => if (x =? x0)%nat then g z y x else 0)).
        -- apply lsum_ext_in. intros x _. simpl.
           destruct (Nat.eqb_spec z z0); destruct (Nat.eqb_spec y y0); try contradiction.
           reflexivity.
        -- rewrite lsum_seq0_single. subst. reflexivity.
      * apply lsum_zero_ext. intros x _.
        destruct (Nat.eqb_spec z z0); [contradiction|reflexivity].
      * apply lsum_zero_ext. intros x _.
        destruct (Nat.eqb_spec z z0); destruct (Nat.eqb_spec y y0); try contradiction; reflexivity.
      * apply lsum_zero_ext. intros x _.
        destruct (Nat.eqb_spec z z0); destruct (Nat.eqb_spec y y0); try contradiction; reflexivity.
    + rewrite lsum_seq0_single.
      destruct (Nat.eqb_spec z z0); destruct (y0 <? b)%nat; reflexivity.
  - rewrite lsum_seq0_single. destruct (z0 <? a)%nat; reflexivity.
Qed.

(** ** Cell numbering *)

Lemma dec_node ny nx z y x :
  (y < ny)%nat -> (x < nx)%nat -> dec ny nx (node ny nx z y x) = (z, y, x).
Proof.
  intros Hy Hx. unfold dec, node.
  assert (E1 : (((z * ny + y) * nx + x) / nx = z * ny + y)%nat).
  { symmetry. apply (Nat.div_unique _ _ _ x); lia. }
  assert (E2 : (((z * ny + y) * nx + x) mod nx = x)%nat).
  { symmetry. apply (Nat.mod_unique _ _ (z * ny + y)); lia. }
  assert (E3 : ((z * ny + y) / ny = z)%nat).
  { symmetry. apply (Nat.div_unique _ _ _ y); lia. }
  assert (E4 : ((z * ny + y) mod ny = y)%nat).
  { symmetry. apply (Nat.mod_unique _ _ z); lia. }
  rewrite E1, E2, E3, E4. reflexivity.
Qed.

Lemma node_dec nz ny nx i :
  (i < nz * ny * nx)%nat ->
  let '(z, y, x) := dec ny nx i in
  (z < nz /\ y < ny /\ x < nx /\ node ny nx z y x = i)%nat.
Proof.
  intros Hi. unfold dec, node.
  assert (Hnx : nx <> 0%nat) by (intros ->; lia).
  assert (Hny : ny <> 0%nat) by (intros ->; lia).
  pose proof (Nat.div_mod_eq i nx) as E1.
  pose proof (Nat.div_mod_eq (i / nx) ny) as E2.
  pose proof (Nat.mod_upper_bound i nx Hnx).
  pose proof (Nat.mod_upper_bound (i / nx) ny Hny).
  assert (Hq : (i / nx < nz * ny)%nat).
  { apply Nat.Div0.div_lt_upper_bound. lia. }
  assert (Hq2 : (i / nx / ny < nz)%nat).
  { apply Nat.Div0.div_lt_upper_bound. lia. }
  repeat split; try assumption.
  replace (i / nx / ny * ny + (i / nx) mod ny)%nat with (i / nx)%nat by lia. lia.
Qed.

Lemma node_eqb ny nx z y x z' y' x' :
  (y < ny)%nat -> (x < nx)%nat -> (y' < ny)%nat -> (x' < nx)%nat ->
  (node ny nx z y x =? node ny nx z' y' x')%nat
  = ((z =? z') && (y =? y') && (x =? x'))%nat.
Proof.
  intros Hy Hx Hy' Hx'.
  destruct (Nat.eqb_spec (node ny nx z y x) (node ny nx z' y' x')) as [E|E].
  - apply (f_equal (dec ny nx)) in E. rewrite !dec_node in E by assumption.
    inversion E; subst. rewrite !Nat.eqb_refl. reflexivity.
  - destruct (Nat.eqb_spec z z'); destruct (Nat.eqb_spec y y');
      destruct (Nat.eqb_spec x x'); subst; try reflexivity.
    exfalso. apply E. reflexivity.
Qed.

Lemma node_lt nz ny nx z y x :
  (z < nz)%nat -> (y < ny)%nat -> (x < nx)%nat -> (node ny nx z y x < nz * ny * nx)%nat.
Proof.
  intros Hz Hy Hx. unfold node.
  assert (H1 : (z * ny + y + 1 <= nz * ny)%nat) by nia.
  assert (H2 : ((z * ny + y + 1) * nx <= nz * ny * nx)%nat)
    by (apply Nat.mul_le_mono_r; exact H1).
  lia.
Qed.

Lemma coo_entry_app l1 l2 i j :
  coo_entry (l1 ++ l2) i j = coo_entry l1 i j + coo_entry l2 i j.
Proof.
  induction l1 as [|[[r c] d] l1 IH]; simpl; [lra|]. rewrite IH. lra.
Qed.

Lemma coo_entry_map {A} (g : A -> nat * nat * R) l i j :
  coo_entry (map g l) i j
  = lsum l (fun a => let '(r, c, d) := g a in if (r =? i)%nat && (c =? j)%nat then d else 0).
Proof.
  induction l as [|a l IH]; simpl; [reflexivity|].
  destruct (g a) as [[r c] d]. rewrite IH. reflexivity.
Qed.

(** ** The assembled matrix *)

Section AssemblyFacts.
Variables (nz ny nx : nat).
Variables (Cx Cy Cz : nat -> nat -> nat -> R).
Variables (iz iy ix : nat).
Hypotheses (Hiz : (iz < nz)%nat) (Hiy : (iy < ny)%nat) (Hix : (ix < nx)%nat).

Let i := node ny nx iz iy ix.

Lemma blk_EW_entry j :
  coo_entry (blk_EW nz ny nx Cx) i j
  = if (0 <? ix)%nat && (j =? node ny nx iz iy (ix - 1))%nat then Cx iz iy (ix - 1)%nat else 0.
Proof.
  unfold blk_EW, i. cbv zeta. rewrite coo_entry_map.
  destruct (Nat.ltb_spec 0 ix) as [Hpos|Hz]; simpl.
  - transitivity (lsum (cells3 nz ny (nx - 1))
      (fun '(z, y, x) => if (z =? iz)%nat && (y =? iy)%nat && (x =? ix - 1)%nat
                         then (if (node ny nx z y x =? j)%nat then Cx z y x else 0) else 0)).
    + apply lsum_ext_in. intros [[z y] x] Hin. apply in_cells3 in Hin.
      rewrite node_eqb by lia.
      replace (S x =? ix)%nat with (x =? ix - 1)%nat
        by (destruct (Nat.eqb_spec x (ix - 1)); destruct (Nat.eqb_spec (S x) ix); lia).
      destruct (z =? iz)%nat, (y =? iy)%nat, (x =? ix - 1)%nat; reflexivity.
    + rewrite lsum_cells3_single.
      rewrite (proj2 (Nat.ltb_lt iz nz)), (proj2 (Nat.ltb_lt iy ny)),
        (proj2 (Nat.ltb_lt (ix - 1) (nx - 1))) by lia.
      simpl. rewrite Nat.eqb_sym. reflexivity.
  - apply lsum_zero_ext. intros [[z y] x] Hin. apply in_cells3 in Hin.
    rewrite node_eqb by lia.
    replace (S x =? ix)%nat with false by (symmetry; apply Nat.eqb_neq; lia).
    destruct (z =? iz)%nat, (y =? iy)%nat; reflexivity.
Qed.

Lemma blk_WE_entry j :
  coo_entry (blk_WE nz ny nx Cx) i j
  = if (S ix <? nx)%nat && (j =? node ny nx iz iy (S ix))%nat then Cx iz iy ix else 0.
Proof.
  unfold blk_WE, i. cbv zeta. rewrite coo_entry_map. simpl.
  transitivity (lsum (cells3 nz ny (nx - 1))
    (fun '(z, y, x) => if (z =? iz)%nat && (y =? iy)%nat && (x =? ix)%nat
                       then (if (node ny nx z y (S x) =? j)%nat then Cx z y x else 0) else 0)).
  - apply lsum_ext_in. intros [[z y] x] Hin. apply in_cells3 in Hin.
    rewrite node_eqb by lia. destruct (z =? iz)%nat, (y =? iy)%nat, (x =? ix)%nat; reflexivity.
  - rewrite lsum_cells3_single.
    rewrite (proj2 (Nat.ltb_lt iz nz)), (proj2 (Nat.ltb_lt iy ny)) by lia.
    destruct (Nat.ltb_spec ix (nx - 1)); destruct (Nat.ltb_spec (S ix) nx); try lia; simpl;
      [rewrite Nat.eqb_sym; reflexivity | reflexivity].
Qed.

Lemma blk_NS_entry j :
  coo_entry (blk_NS nz ny nx Cy) i j
  = if (S iy <? ny)%nat && (j =? node ny nx iz (S iy) ix)%nat then Cy iz iy ix else 0.
Proof.
  unfold blk_NS, i. cbv zeta. rewrite coo_entry_map. simpl.
  transitivity (lsum (cells3 nz (ny - 1) nx)
    (fun '(z, y, x) => if (z =? iz)%nat && (y =? iy)%nat && (x =? ix)%nat
                       then (if (node ny nx z (S y) x =? j)%nat then Cy z y x else 0) else 0)).
  - apply lsum_ext_in. intros [[z y] x] Hin. apply in_cells3 in Hin.
    rewrite node_eqb by lia. destruct (z =? iz)%nat, (y =? iy)%nat, (x =? ix)%nat; reflexivity.
  - rewrite lsum_cells3_single.
    rewrite (proj2 (Nat.ltb_lt iz nz)), (proj2 (Nat.ltb_lt ix nx)) by lia.
    destruct (Nat.ltb_spec iy (ny - 1)); destruct (Nat.ltb_spec (S iy) ny); try lia; simpl;
      rewrite ?andb_true_r; [rewrite Nat.eqb_sym; reflexivity | reflexivity].
Qed.

Lemma blk_SN_entry j :
  coo_entry (blk_SN nz ny nx Cy) i j
  = if (0 <? iy)%nat && (j =? node ny nx iz (iy - 1) ix)%nat then Cy iz (iy - 1)%nat ix else 0.
Proof.
  unfold blk_SN, i. cbv zeta. rewrite coo_entry_map.
  destruct (Nat.ltb_spec 0 iy) as [Hpos|Hz]; simpl.
  - transitivity (lsum (cells3 nz (ny - 1) nx)
      (fun '(z, y, x) => if (z =? iz)%nat && (y =? iy - 1)%nat && (x =? ix)%nat
                         then (if (node ny nx z y x =? j)%nat then Cy z y x else 0) else 0)).
    + apply lsum_ext_in. intros [[z y] x] Hin. apply in_cells3 in Hin.
      rewrite node_eqb by lia.
      replace (S y =? iy)%nat with (y =? iy - 1)%nat
        by (destruct (Nat.eqb_spec y (iy - 1)); destruct (Nat.eqb_spec (S y) iy); lia).
      destruct (z =? iz)%nat, (y =? iy - 1)%nat, (x =? ix)%nat; reflexivity.
    + rewrite lsum_cells3_single.
      rewrite (proj2 (Nat.ltb_lt iz nz)), (proj2 (Nat.ltb_lt (iy - 1) (ny - 1))),
        (proj2 (Nat.ltb_lt ix nx)) by lia.
      simpl. rewrite Nat.eqb_sym. reflexivity.
  - apply lsum_zero_ext. intros [[z y] x] Hin. apply in_cells3 in Hin.
    rewrite node_eqb by lia.
    replace (S y =? iy)%nat with false by (symmetry; apply Nat.eqb_neq; lia).
    destruct (z =? iz)%nat; reflexivity.
Qed.

Lemma blk_BT_entry j :
  coo_entry (blk_BT nz ny nx Cz) i j
  = if (0 <? iz)%nat && (j =? node ny nx (iz - 1) iy ix)%nat then Cz (iz - 1)%nat iy ix else 0.
Proof.
  unfold blk_BT, i. cbv zeta. rewrite coo_entry_map.
  destruct (Nat.ltb_spec 0 iz) as [Hpos|Hz]; simpl.
  - transitivity (lsum (cells3 (nz - 1) ny nx)
      (fun '(z, y, x) => if (z =? iz - 1)%nat && (y =? iy)%nat && (x =? ix)%nat
                         then (if (node ny nx z y x =? j)%nat then Cz z y x else 0) else 0)).
    + apply lsum_ext_in. intros [[z y] x] Hin. apply in_cells3 in Hin.
      rewrite node_eqb by lia.
      replace (S z =? iz)%nat with (z =? iz - 1)%nat
        by (destruct (Nat.eqb_spec z (iz - 1)); destruct (Nat.eqb_spec (S z) iz); lia).
      destruct (z =? iz - 1)%nat, (y =? iy)%nat, (x =? ix)%nat; reflexivity.
    + rewrite lsum_cells3_single.
      rewrite (proj2 (Nat.ltb_lt (iz - 1) (nz - 1))), (proj2 (Nat.ltb_lt iy ny)),
        (proj2 (Nat.ltb_lt ix nx)) by lia.
      simpl. rewrite Nat.eqb_sym. reflexivity.
  - apply lsum_zero_ext. intros [[z y] x] Hin. apply in_cells3 in Hin.
    rewrite node_eqb by lia.
    replace (S z =? iz)%nat with false by (symmetry; apply Nat.eqb_neq; lia).
    reflexivity.
Qed.

Lemma blk_TB_entry j :
  coo_entry (blk_TB nz ny nx Cz) i j
  = if (S iz <? nz)%nat && (j =? node ny nx (S iz) iy ix)%nat then Cz iz iy ix else 0.
Proof.
  unfold blk_TB, i. cbv zeta. rewrite coo_entry_map. simpl.
  transitivity (lsum (cells3 (nz - 1) ny nx)
    (fun '(z, y, x) => if (z =? iz)%nat && (y =? iy)%nat && (x =? ix)%nat
                       then (if (node ny nx (S z) y x =? j)%nat then Cz z y x else 0) else 0)).
  - apply lsum_ext_in. intros [[z y] x] Hin. apply in_cells3 in Hin.
    rewrite node_eqb by lia. destruct (z =? iz)%nat, (y =? iy)%nat, (x =? ix)%nat; reflexivity.
  - rewrite lsum_cells3_single.
    rewrite (proj2 (Nat.ltb_lt iy ny)), (proj2 (Nat.ltb_lt ix nx)) by lia.
    destruct (Nat.ltb_spec iz (nz - 1)); destruct (Nat.ltb_spec (S iz) nz); try lia; simpl;
      rewrite ?andb_true_r; [rewrite Nat.eqb_sym; reflexivity | reflexivity].
Qed.

Lemma A0_cond j : A0 nz ny nx Cx Cy Cz i j = cond nz ny nx Cx Cy Cz i j.
Proof.
  unfold A0, coo_triples. rewrite !coo_entry_app.
  rewrite blk_EW_entry, blk_WE_entry, blk_NS_entry, blk_SN_entry, blk_BT_entry, blk_TB_entry.
  unfold cond, i. cbv zeta. rewrite dec_node by assumption.
  repeat match goal with
         | |- context [ (?a <? ?b)%nat ] => destruct (Nat.ltb_spec a b)
         end; simpl;
  repeat match goal with
         | |- context [ (?a =? ?b)%nat ] => destruct (Nat.eqb_spec a b)
         end;
  try lra;
  match goal with
  | H1 : ?j = node ?b ?c ?z1 ?y1 ?x1, H2 : ?j = node ?b ?c ?z2 ?y2 ?x2 |- _ =>
      let E := fresh in
      assert (E : node b c z1 y1 x1 = node b c z2 y2 x2) by (rewrite <- H1; exact H2);
      apply (f_equal (dec b c)) in E; rewrite !dec_node in E by lia;
      injection E; intros; lia
  end.
Qed.

Lemma cond_diag : cond nz ny nx Cx Cy Cz i i = 0.
Proof.
  unfold cond, i. cbv zeta. rewrite dec_node by assumption.
  repeat match goal with
         | |- context [ (?a <? ?b)%nat ] => destruct (Nat.ltb_spec a b)
         end; simpl;
  repeat match goal with
         | |- context [ (?a =? ?b)%nat ] => destruct (Nat.eqb_spec a b)
         end;
  try reflexivity;
  match goal with
  | E : node ?b ?c ?z1 ?y1 ?x1 = node ?b ?c ?z2 ?y2 ?x2 |- _ =>
      apply (f_equal (dec b c)) in E; rewrite !dec_node in E by lia;
      injection E; intros; lia
  end.
Qed.
End AssemblyFacts.

Lemma A0_cond_any nz ny nx Cx Cy Cz i j :
  (i < nz * ny * nx)%nat -> A0 nz ny nx Cx Cy Cz i j = cond nz ny nx Cx Cy Cz i j.
Proof.
  intros Hi. pose proof (node_dec nz ny nx i Hi) as Hd.
  destruct (dec ny nx i) as [[z y] x]. destruct Hd as (Hz & Hy & Hx & <-).
  apply A0_cond; assumption.
Qed.

Lemma cond_diag_any nz ny nx Cx Cy Cz i :
  (i < nz * ny * nx)%nat -> cond nz ny nx Cx Cy Cz i i = 0.
Proof.
  intros Hi. pose proof (node_dec nz ny nx i Hi) as Hd.
  destruct (dec ny nx i) as [[z y] x]. destruct Hd as (Hz & Hy & Hx & <-).
  apply cond_diag; assumption.
Qed.


Lemma assemble_offdiag nz ny nx Cx Cy Cz i j :
  (i < nz * ny * nx)%nat -> i <> j ->
  assemble nz ny nx Cx Cy Cz i j = - cond nz ny nx Cx Cy Cz i j.
Proof.
  intros Hi Hij. unfold assemble. rewrite (proj2 (Nat.eqb_neq i j) Hij).
  rewrite A0_cond_any by exact Hi. ring.
Qed.


Lemma diffs_length t : List.length (diffs t) = (List.length t - 1)%nat.
Proof.
  induction t as [|a [|b t] IH]; simpl; [reflexivity|reflexivity|].
  simpl in IH. rewrite IH. lia.
Qed.

Lemma diffs_skipn t k : diffs (skipn k t) = skipn k (diffs t).
Proof.
  revert k. induction t as [|a t IH]; intros k; [destruct k; reflexivity|].
  destruct k as [|k]; [reflexivity|]. simpl skipn at 1. rewrite IH.
  destruct t as [|b t]; [destruct k; reflexivity|reflexivity].
Qed.

Lemma nth_skipn_add {X} (l : list X) k m d : nth (k + m) l d = nth m (skipn k l) d.
Proof.
  revert l. induction k as [|k IH]; intros l; [reflexivity|].
  destruct l as [|a l]; simpl; [destruct m; reflexivity|apply IH].
Qed.

Lemma skipn_map_comm {X Y} (f : X -> Y) k l : skipn k (map f l) = map f (skipn k l).
Proof.
  revert l. induction k as [|k IH]; intros l; [reflexivity|].
  destruct l; simpl; [reflexivity|apply IH].
Qed.


(** ** Float arithmetic *)

Lemma is_zero_true r : r = 0 -> is_zero r = true.
Proof. intros ->. unfold is_zero. destruct (Req_EM_T 0 0); [reflexivity|congruence]. Qed.

Lemma is_zero_false r : r <> 0 -> is_zero r = false.
Proof. intros H. unfold is_zero. destruct (Req_EM_T r 0); [congruence|reflexivity]. Qed.

Lemma is_zero_eq r : is_zero r = true -> r = 0.
Proof. unfold is_zero. destruct (Req_EM_T r 0); [auto|discriminate]. Qed.

Lemma is_neg_true r : r < 0 -> is_neg r = true.
Proof. intros H. unfold is_neg. destruct (Rlt_dec r 0); [reflexivity|lra]. Qed.

Lemma is_neg_false r : 0 <= r -> is_neg r = false.
Proof. intros H. unfold is_neg. destruct (Rlt_dec r 0); [lra|reflexivity]. Qed.

Lemma fdiv_fin x y : y <> 0 -> fdiv (Fin x) (Fin y) = Fin (x / y).
Proof. intros H. simpl. rewrite is_zero_false by exact H. reflexivity. Qed.

(** Division of a number by zero is not a number. *)
Lemma fdiv_zero_not_fin x r : fdiv (Fin x) (Fin 0) <> Fin r.
Proof. simpl. rewrite is_zero_true by reflexivity. destruct (is_zero x); discriminate. Qed.

Lemma fdiv_nonzero_by_zero x : x <> 0 -> fdiv (Fin x) (Fin 0) = Inf (is_neg x).
Proof.
  intros H. simpl. rewrite is_zero_true by reflexivity.
  rewrite is_zero_false by exact H. reflexivity.
Qed.

Lemma fadd_fin_inv a b r :
  fadd a b = Fin r -> exists x y, a = Fin x /\ b = Fin y /\ r = x + y.
Proof.
  destruct a as [x| |s], b as [y| |s']; simpl; try discriminate;
    try (destruct (Bool.eqb s s'); discriminate).
  intros H. injection H as <-. eauto.
Qed.

Lemma fdiv_fin_inv a b r : fdiv a b = Fin r -> exists x, a = Fin x.
Proof. destruct a as [x| |s], b as [y| |s']; simpl; try discriminate; eauto. Qed.

Lemma fadd_0_r a : fadd a (Fin 0) = a.
Proof. destruct a; simpl; try reflexivity. rewrite Rplus_0_r. reflexivity. Qed.

Lemma fadd_comm a b : fadd a b = fadd b a.
Proof.
  destruct a as [x| |s], b as [y| |s']; simpl; try reflexivity.
  - rewrite Rplus_comm. reflexivity.
  - destruct s, s'; reflexivity.
Qed.

Lemma fmul_nan_r a : fmul a NaN = NaN.
Proof. destruct a; reflexivity. Qed.


Lemma fsum_to_fin n f g :
  (forall k, (k < n)%nat -> f k = Fin (g k)) -> fsum_to n f = Fin (sum_to n g).
Proof.
  induction n as [|n IH]; intros H; simpl; [reflexivity|].
  rewrite IH by (intros; apply H; lia). rewrite H by lia. reflexivity.
Qed.

Lemma fsum_to_ext n f g :
  (forall k, (k < n)%nat -> f k = g k) -> fsum_to n f = fsum_to n g.
Proof.
  induction n as [|n IH]; intros H; simpl; [reflexivity|].
  rewrite IH by (intros; apply H; lia). rewrite H by lia. reflexivity.
Qed.

(** A term of a sparse product: only stored entries contribute. *)
Lemma sparse_term (g : bool) (m v : R) :
  (if g && fnz (Fin m) then fmul (Fin m) (Fin v) else Fin 0) = Fin (if g then m * v else 0).
Proof.
  destruct g; [|reflexivity]. cbn [andb fnz].
  destruct (Req_EM_T m 0) as [->|Hm].
  - rewrite is_zero_true by reflexivity. simpl. rewrite Rmult_0_l. reflexivity.
  - rewrite is_zero_false by exact Hm. reflexivity.
Qed.

Lemma dense_term (m v : R) :
  (if is_zero m then Fin 0 else fmul (Fin m) (Fin v)) = Fin (m * v).
Proof.
  destruct (Req_EM_T m 0) as [->|Hm].
  - rewrite is_zero_true by reflexivity. rewrite Rmult_0_l. reflexivity.
  - rewrite is_zero_false by exact Hm. reflexivity.
Qed.

(** ** One time step and the time loop *)

Section StepFacts.
Variable spsolve : nat -> (nat -> bool) -> (nat -> nat -> fl) -> (nat -> fl) -> nat -> fl.
Variables (nz ny nx : nat) (A : nat -> nat -> R) (Cx Cy Cz : nat -> nat -> nat -> R).
Variables (Cs : nat -> fl) (FQ : nat -> R) (IB : nat -> Z) (epsilon : R).

Local Abbreviation stp := (step spsolve nz ny nx A Cx Cy Cz Cs FQ IB epsilon).
Local Abbreviation rn := (run spsolve nz ny nx A Cx Cy Cz Cs FQ IB epsilon).
Local Abbreviation prov := (provisional spsolve nz ny nx A Cs FQ IB).
Local Abbreviation bv := (baa nz ny nx A Cs FQ IB).
Local Abbreviation N := (nz * ny * nx)%nat.

(** Every cell is exactly one of inactive, fixed-head, active. *)
Lemma cell_class i :
  (inact IB i = true /\ fxhd IB i = false /\ active IB i = false) \/
  (inact IB i = false /\ fxhd IB i = true /\ active IB i = false) \/
  (inact IB i = false /\ fxhd IB i = false /\ active IB i = true).
Proof.
  unfold inact, fxhd, active.
  destruct (Z.eqb_spec (IB i) 0); destruct (Z.ltb_spec (IB i) 0);
    destruct (Z.ltb_spec 0 (IB i)); lia || tauto.
Qed.

Local Ltac classify i :=
  destruct (cell_class i) as [(H1 & H2 & H3)|[(H1 & H2 & H3)|(H1 & H2 & H3)]].

Lemma step_fixed dt old i : fxhd IB i = true -> s_Phi (stp dt old) i = old i.
Proof.
  intros Hf. simpl. classify i; rewrite ?H1, ?H2, ?H3 in *; congruence.
Qed.

Lemma step_inact dt old i : inact IB i = true -> s_Phi (stp dt old) i = NaN.
Proof. intros Hi. simpl. rewrite Hi. reflexivity. Qed.

Lemma step_active dt old i : active IB i = true ->
  s_Phi (stp dt old) i = fadd (old i) (fdiv (fsub (prov dt old i) (old i)) (Fin epsilon)).
Proof.
  intros Ha. simpl. classify i; rewrite ?H1, ?H2, ?H3 in *; congruence.
Qed.

Lemma run_length old dts : List.length (rn old dts) = List.length dts.
Proof.
  revert old. induction dts as [|dt dts IH]; intros old; simpl; [reflexivity|].
  rewrite IH. reflexivity.
Qed.

(** The k-th result of the loop is one step from the k-th head field. *)
Lemma nth_run {X} (f : step_out -> X) (x : X) dts old k :
  (k < List.length dts)%nat ->
  nth k (map f (rn old dts)) x
  = f (stp (nth k dts 0) (nth k (old :: map s_Phi (rn old dts)) (fun _ => NaN))).
Proof.
  revert old k. induction dts as [|dt dts IH]; intros old k Hk; simpl in Hk; [lia|].
  destruct k as [|k]; simpl; [reflexivity|].
  apply IH. lia.
Qed.

Lemma phis_fixed dts old k j :
  fxhd IB j = true -> nth k (old :: map s_Phi (rn old dts)) (fun _ => NaN) j = old j
                       \/ (List.length dts < k)%nat.
Proof.
  intros Hf. revert old k. induction dts as [|dt dts IH]; intros old k.
  - destruct k as [|[|k]]; simpl; [left; reflexivity|right; lia|right; lia].
  - destruct k as [|k]; simpl; [left; reflexivity|].
    destruct (IH (s_Phi (stp dt old)) k) as [E|E]; [|right; lia].
    left. change (nth k (s_Phi (stp dt old) :: map s_Phi (rn (s_Phi (stp dt old)) dts))
                    (fun _ => NaN) j = old j).
    rewrite E. apply step_fixed. exact Hf.
Qed.

Lemma phis_inact dts old k j :
  inact IB j = true -> (1 <= k <= List.length dts)%nat ->
  nth k (old :: map s_Phi (rn old dts)) (fun _ => NaN) j = NaN.
Proof.
  intros Hi Hk. destruct k as [|k]; [lia|]. simpl.
  rewrite (nth_run s_Phi) by lia. apply step_inact. exact Hi.
Qed.

(** Restarting the loop at step [k] from the k-th head field. *)
Lemma skipn_run dts old k :
  (k <= List.length dts)%nat ->
  skipn k (rn old dts)
  = rn (nth k (old :: map s_Phi (rn old dts)) (fun _ => NaN)) (skipn k dts).
Proof.
  revert old k. induction dts as [|dt dts IH]; intros old k Hk.
  - destruct k; simpl in *; [reflexivity|lia].
  - destruct k as [|k]; simpl; [reflexivity|].
    apply IH. simpl in Hk. lia.
Qed.

(** The right-hand side of an active cell, from finite fixed heads. *)
Lemma RHS_fin dt old i :
  active IB i = true ->
  (forall j, (j < N)%nat -> fxhd IB j = true -> exists v, old j = Fin v) ->
  RHS nz ny nx A Cs FQ IB dt old i
  = Fin (FQ i - sum_to N (fun j => if fxhd IB j then A i j * fval (old j) else 0)).
Proof.
  intros Ha Hf. unfold RHS.
  rewrite (fsum_to_fin _ _ (fun j => if fxhd IB j then A i j * fval (old j) else 0)).
  - cbn [fsub fneg fadd]. f_equal; ring.
  - intros j Hj. destruct (fxhd IB j) eqn:Ej; [|reflexivity].
    destruct (Hf j Hj Ej) as [v Hv]. rewrite Hv. simpl fval.
    unfold Mdt. destruct (Nat.eqb_spec i j) as [<-|_]; [classify i; congruence|].
    exact (sparse_term true (A i j) v).
Qed.

(** The right-hand side [b] of the reduced system at an active cell. *)
Lemma baa_fin dt old i c o :
  active IB i = true -> (i < N)%nat -> fdiv (Cs i) (Fin dt) = Fin c -> old i = Fin o ->
  (forall j, (j < N)%nat -> fxhd IB j = true -> exists v, old j = Fin v) ->
  bv dt old i
  = Fin (FQ i - sum_to N (fun j => if fxhd IB j then A i j * fval (old j) else 0) + c * o).
Proof.
  intros Ha Hi Hc Ho Hf. unfold baa. rewrite Ha, (proj2 (Nat.ltb_lt _ _) Hi). cbn [andb].
  rewrite RHS_fin by assumption. rewrite Hc, Ho. reflexivity.
Qed.

(** From finite heads, with [Cs / dt] finite at the active cells, the
    right-hand side [b] is finite everywhere. *)
Lemma baa_eta dt old :
  (forall i, (i < N)%nat -> active IB i = true -> exists c, fdiv (Cs i) (Fin dt) = Fin c) ->
  (forall j, (j < N)%nat -> inact IB j = false -> exists v, old j = Fin v) ->
  bv dt old = fun j => Fin (fval (bv dt old j)).
Proof.
  intros Hc Ho. extensionality j.
  destruct (active IB j && (j <? N)%nat) eqn:E.
  - apply andb_prop in E as [Ha Hj]. apply Nat.ltb_lt in Hj.
    destruct (Hc j Hj Ha) as [c Ec].
    destruct (Ho j Hj) as [o Eo]; [classify j; congruence|].
    rewrite (baa_fin dt old j c o Ha Hj Ec Eo); [reflexivity|].
    intros l Hl Hfl. apply Ho; [exact Hl|]. classify l; congruence.
  - unfold baa. rewrite E. reflexivity.
Qed.

(** A step from finite heads, with [Cs / dt] finite at the active cells,
    a solver that returns finite values for finite right-hand sides and
    [epsilon <> 0] where there is an active cell, gives finite provisional
    heads and finite heads at the cells that are not inactive. *)
Lemma step_finite dt old :
  (forall i, (i < N)%nat -> active IB i = true -> exists c, fdiv (Cs i) (Fin dt) = Fin c) ->
  (forall b : nat -> R, exists x, forall i, (i < N)%nat -> active IB i = true ->
     spsolve N (active IB) (Maa A Cs IB dt) (fun j => Fin (b j)) i = Fin (x i)) ->
  (forall i, (i < N)%nat -> active IB i = true -> epsilon <> 0) ->
  (forall j, (j < N)%nat -> inact IB j = false -> exists v, old j = Fin v) ->
  (forall j, (j < N)%nat -> exists v, prov dt old j = Fin v) /\
  (forall j, (j < N)%nat -> inact IB j = false -> exists v, s_Phi (stp dt old) j = Fin v).
Proof.
  intros Hc Hs He Ho.
  pose proof (baa_eta dt old Hc Ho) as Hb.
  destruct (Hs (fun j => fval (bv dt old j))) as [x Hx].
  assert (Hp : forall j, (j < N)%nat -> exists v, prov dt old j = Fin v).
  { intros j Hj. unfold provisional. destruct (active IB j) eqn:Ha; [|eexists; reflexivity].
    rewrite Hb. exists (x j). exact (Hx j Hj Ha). }
  split; [exact Hp|].
  intros j Hj Hn. classify j; [congruence| |].
  - rewrite step_fixed by exact H2. exact (Ho j Hj Hn).
  - rewrite step_active by exact H3.
    destruct (Hp j Hj) as [p Ep]. destruct (Ho j Hj Hn) as [o Eo].
    rewrite Ep, Eo. cbn [fsub fneg fadd]. rewrite fdiv_fin by exact (He j Hj H3).
    eexists. reflexivity.
Qed.

(** A step reads the previous heads only at cells that are not inactive. *)
Lemma step_congr dt old1 old2 :
  (forall j, inact IB j = false -> old1 j = old2 j) ->
  forall i, s_Phi (stp dt old1) i = s_Phi (stp dt old2) i.
Proof.
  intros H.
  assert (Hb : bv dt old1 = bv dt old2).
  { extensionality i. unfold baa, RHS.
    destruct (active IB i && (i <? N)%nat) eqn:Ha; [|reflexivity].
    apply andb_prop in Ha as [Ha _].
    rewrite (H i) by (classify i; congruence).
    f_equal. f_equal. apply fsum_to_ext. intros j _.
    destruct (fxhd IB j) eqn:Hf; [|reflexivity].
    rewrite (H j); [reflexivity|]. classify j; congruence. }
  assert (Hp : prov dt old1 = prov dt old2).
  { unfold provisional. rewrite Hb. reflexivity. }
  intros i. unfold step. rewrite Hp. cbn [s_Phi].
  classify i; rewrite ?H1, ?H2, ?H3; try reflexivity.
  - apply H. exact H1.
  - rewrite (H i H1). reflexivity.
Qed.

Lemma run_congr dts :
  forall old1 old2, (forall j, inact IB j = false -> old1 j = old2 j) ->
  forall k i, nth k (map s_Phi (rn old1 dts)) (fun _ => NaN) i
              = nth k (map s_Phi (rn old2 dts)) (fun _ => NaN) i.
Proof.
  induction dts as [|dt dts IH]; intros old1 old2 H k i; simpl.
  - destruct k; reflexivity.
  - destruct k as [|k].
    + apply step_congr. exact H.
    + apply IH. intros j _. apply step_congr. exact H.
Qed.

(** The same on the cells of the grid: a step reads the previous heads only
    at the cells [j < N] that are not inactive, and its heads on those cells
    depend on nothing else. *)
Lemma step_congr_lt dt old1 old2 :
  (forall j, (j < N)%nat -> inact IB j = false -> old1 j = old2 j) ->
  forall i, (i < N)%nat -> s_Phi (stp dt old1) i = s_Phi (stp dt old2) i.
Proof.
  intros H.
  assert (Hb : bv dt old1 = bv dt old2).
  { extensionality i. unfold baa, RHS.
    destruct (active IB i && (i <? N)%nat) eqn:Ha; [|reflexivity].
    apply andb_prop in Ha as [Ha Hi]. apply Nat.ltb_lt in Hi.
    rewrite (H i Hi) by (classify i; congruence).
    f_equal. f_equal. apply fsum_to_ext. intros j Hj.
    destruct (fxhd IB j) eqn:Hf; [|reflexivity].
    rewrite (H j Hj); [reflexivity|]. classify j; congruence. }
  assert (Hp : prov dt old1 = prov dt old2).
  { unfold provisional. rewrite Hb. reflexivity. }
  intros i Hi. unfold step. rewrite Hp. cbn [s_Phi].
  classify i; rewrite ?H1, ?H2, ?H3; try reflexivity.
  - apply H; assumption.
  - rewrite (H i Hi H1). reflexivity.
Qed.

Lemma run_congr_lt dts :
  forall old1 old2, (forall j, (j < N)%nat -> inact IB j = false -> old1 j = old2 j) ->
  forall k i, (i < N)%nat ->
    nth k (map s_Phi (rn old1 dts)) (fun _ => NaN) i
    = nth k (map s_Phi (rn old2 dts)) (fun _ => NaN) i.
Proof.
  induction dts as [|dt dts IH]; intros old1 old2 H k i Hi; simpl.
  - destruct k; reflexivity.
  - destruct k as [|k].
    + apply step_congr_lt; assumption.
    + apply IH; [|exact Hi]. intros j Hj _. apply step_congr_lt; assumption.
Qed.
End StepFacts.

Lemma Cx_of_inact gr kx IB xl z y x :
  inact IB (NOD gr z y x) = true \/ inact IB (NOD gr z y (S x)) = true ->
  Cx_of gr kx IB xl z y x = 0.
Proof.
  intros H. unfold Cx_of, Rx2, Rx1, mask_inact.
  destruct (axial gr); destruct (inact IB (NOD gr z y x)); destruct (inact IB (NOD gr z y (S x)));
    try reflexivity; destruct H; discriminate.
Qed.

Lemma Cy_of_inact gr ky IB z y x :
  inact IB (NOD gr z y x) = true \/ inact IB (NOD gr z (S y) x) = true ->
  Cy_of gr ky IB z y x = 0.
Proof.
  intros H. unfold Cy_of, Ry1, mask_inact.
  destruct (axial gr); destruct (inact IB (NOD gr z y x)); destruct (inact IB (NOD gr z (S y) x));
    try reflexivity; destruct H; discriminate.
Qed.

Lemma Cz_of_inact gr kz IB z y x :
  inact IB (NOD gr z y x) = true \/ inact IB (NOD gr (S z) y x) = true ->
  Cz_of gr kz IB z y x = 0.
Proof.
  intros H. unfold Cz_of, Rz1, mask_inact.
  destruct (axial gr); destruct (inact IB (NOD gr z y x)); destruct (inact IB (NOD gr (S z) y x));
    try reflexivity; destruct H; discriminate.
Qed.


(** Every conductance of an inactive cell, or to an inactive cell, is 0. *)
Lemma cond_inact gr kx ky kz IB xl i j :
  (i < nod gr)%nat -> inact IB i = true \/ inact IB j = true ->
  cond (nz gr) (ny gr) (nx gr) (Cx_of gr kx IB xl) (Cy_of gr ky IB) (Cz_of gr kz IB) i j = 0.
Proof.
  intros Hi H. pose proof (node_dec (nz gr) (ny gr) (nx gr) i Hi) as Hd.
  unfold cond. destruct (dec (ny gr) (nx gr) i) as [[z y] x].
  destruct Hd as (Hz & Hy & Hx & Ei).
  repeat match goal with
         | |- context [ if ?c then _ else _ ] =>
             let E := fresh "E" in
             destruct c eqn:E;
             [let H1 := fresh in let H2 := fresh in
              apply andb_prop in E; destruct E as [H1 H2]; apply Nat.eqb_eq in H2; subst j;
              rewrite ?Nat.ltb_lt in H1|]
         end; try reflexivity;
  first [apply Cx_of_inact | apply Cy_of_inact | apply Cz_of_inact]; unfold NOD;
  repeat match goal with
         | |- context [ S (?a - 1) ] => replace (S (a - 1)) with a by lia
         end;
  rewrite Ei; tauto.
Qed.

(** The COO matrix of line 138 is symmetric: each block has its transpose
    among the six blocks. *)
Lemma A0_sym nz ny nx Cx Cy Cz i j : A0 nz ny nx Cx Cy Cz i j = A0 nz ny nx Cx Cy Cz j i.
Proof.
  unfold A0, coo_triples. rewrite !coo_entry_app.
  unfold blk_EW, blk_WE, blk_NS, blk_SN, blk_BT, blk_TB. rewrite !coo_entry_map.
  match goal with
  | |- ?a1 + (?a2 + (?a3 + (?a4 + (?a5 + ?a6)))) = ?b1 + (?b2 + (?b3 + (?b4 + (?b5 + ?b6)))) =>
      assert (E1 : a1 = b2); [|assert (E2 : a2 = b1); [|assert (E3 : a3 = b4);
        [|assert (E4 : a4 = b3); [|assert (E5 : a5 = b6); [|assert (E6 : a6 = b5)]]]]]
  end;
  try (apply lsum_ext_in; intros [[z y] x] _; rewrite andb_comm; reflexivity).
  lra.
Qed.

Lemma assemble_sym nz ny nx Cx Cy Cz i j :
  assemble nz ny nx Cx Cy Cz i j = assemble nz ny nx Cx Cy Cz j i.
Proof.
  destruct (Nat.eq_dec i j) as [<-|Hne]; [reflexivity|].
  unfold assemble. rewrite (proj2 (Nat.eqb_neq i j)), (proj2 (Nat.eqb_neq j i)) by congruence.
  rewrite A0_sym. reflexivity.
Qed.

(** Every row of [A] sums to zero. *)
Lemma assemble_row_sum nz ny nx Cx Cy Cz i :
  (i < nz * ny * nx)%nat -> sum_to (nz * ny * nx) (fun j => assemble nz ny nx Cx Cy Cz i j) = 0.
Proof.
  intros Hi. unfold assemble.
  rewrite sum_to_plus, sum_to_opp.
  rewrite (sum_to_single (nz * ny * nx) i (fun _ => sum_to (nz * ny * nx) (fun k => A0 nz ny nx Cx Cy Cz i k))).
  rewrite (proj2 (Nat.ltb_lt i _) Hi).
  change (A0 nz ny nx Cx Cy Cz i) with (fun k => A0 nz ny nx Cx Cy Cz i k). lra.
Qed.

Lemma sum_to_swap n m (f : nat -> nat -> R) :
  sum_to n (fun i => sum_to m (fun j => f i j)) = sum_to m (fun j => sum_to n (fun i => f i j)).
Proof.
  induction n as [|n IH]; simpl.
  - symmetry. apply sum_to_zero.
  - rewrite IH, <- sum_to_plus. reflexivity.
Qed.

(** [A.dot(p)] sums to zero over the grid, whatever [p]. *)
Lemma assemble_dot_total nz ny nx Cx Cy Cz (p : nat -> R) :
  sum_to (nz * ny * nx) (fun i => sum_to (nz * ny * nx) (fun j => assemble nz ny nx Cx Cy Cz i j * p j))
  = 0.
Proof.
  rewrite sum_to_swap.
  rewrite (sum_to_ext _ _ (fun _ => 0)); [apply sum_to_zero|].
  intros j Hj.
  rewrite (sum_to_ext _ _ (fun i => p j * assemble nz ny nx Cx Cy Cz j i))
    by (intros i _; rewrite assemble_sym; ring).
  rewrite sum_to_scal, assemble_row_sum by exact Hj. ring.
Qed.

(** A row of [A] at an inactive cell is zero, and so is the entry of an
    inactive column in any other row. *)
Lemma A_of_inact gr kx ky kz IB xl i j :
  (i < nod gr)%nat -> inact IB i = true \/ (inact IB j = true /\ i <> j) ->
  assemble (nz gr) (ny gr) (nx gr) (Cx_of gr kx IB xl) (Cy_of gr ky IB) (Cz_of gr kz IB) i j = 0.
Proof.
  intros Hi H. destruct (Nat.eq_dec i j) as [<-|Hne].
  - destruct H as [H|[_ H]]; [|congruence].
    unfold assemble. rewrite Nat.eqb_refl.
    rewrite A0_cond_any, cond_inact by (exact Hi || tauto).
    rewrite (sum_to_ext _ _ (fun _ => 0)) by
      (intros k _; rewrite A0_cond_any, cond_inact by (exact Hi || tauto); reflexivity).
    rewrite sum_to_zero. ring.
  - rewrite assemble_offdiag by assumption. rewrite cond_inact by (exact Hi || tauto). ring.
Qed.

Section MoreStepFacts.
Variable spsolve : nat -> (nat -> bool) -> (nat -> nat -> fl) -> (nat -> fl) -> nat -> fl.
Variables (nz ny nx : nat) (A : nat -> nat -> R) (Cx Cy Cz : nat -> nat -> nat -> R).
Variables (Cs : nat -> fl) (FQ : nat -> R) (IB : nat -> Z) (epsilon : R).

Local Abbreviation stp := (step spsolve nz ny nx A Cx Cy Cz Cs FQ IB epsilon).
Local Abbreviation rn := (run spsolve nz ny nx A Cx Cy Cz Cs FQ IB epsilon).

(** A property of every per-step result of the loop, and of the default
    value read past its end. *)
Lemma nth_run_prop {X} (P : X -> Prop) (f : step_out -> X) d dts old k :
  P d -> (forall dt o, In dt dts -> P (f (stp dt o))) -> P (nth k (map f (rn old dts)) d).
Proof.
  revert old k. induction dts as [|dt dts IH]; intros old k Hd Hs; simpl.
  - destruct k; exact Hd.
  - destruct k as [|k]; [apply Hs; left; reflexivity|].
    apply IH; [exact Hd|]. intros dt' o Hin. apply Hs. right. exact Hin.
Qed.

(** A property of head fields kept by every step of the loop. *)
Lemma run_invariant (P : (nat -> fl) -> Prop) dts old :
  P old -> (forall dt o, In dt dts -> P o -> P (s_Phi (stp dt o))) ->
  forall k, (k <= List.length dts)%nat -> P (nth k (old :: map s_Phi (rn old dts)) (fun _ => NaN)).
Proof.
  revert old. induction dts as [|dt dts IH]; intros old Ho Hs k Hk.
  - destruct k; [exact Ho|simpl in Hk; lia].
  - destruct k as [|k]; [exact Ho|].
    change (P (nth k (s_Phi (stp dt old) :: map s_Phi (rn (s_Phi (stp dt old)) dts)) (fun _ => NaN))).
    apply IH.
    + apply Hs; [left; reflexivity|exact Ho].
    + intros dt' o Hin. apply Hs. right. exact Hin.
    + simpl in Hk. lia.
Qed.
End MoreStepFacts.

Lemma not_active_of_inact (IB : nat -> Z) i : inact IB i = true -> active IB i = false.
Proof. unfold inact, active. intros H. apply Z.eqb_eq in H. rewrite H. reflexivity. Qed.

Lemma not_active_of_fxhd (IB : nat -> Z) i : fxhd IB i = true -> active IB i = false.
Proof.
  unfold fxhd, active. intros H. apply Z.ltb_lt in H. apply Z.ltb_ge. lia.
Qed.


Lemma provisional_not_active spsolve nz ny nx A Cs FQ IB dt old i :
  active IB i = false -> provisional spsolve nz ny nx A Cs FQ IB dt old i = Fin 0.
Proof. intros H. unfold provisional. rewrite H. reflexivity. Qed.

(** The prescribed flows of a step are read only at active cells. *)
Lemma step_FQ_congr spsolve nz ny nx A Cx Cy Cz Cs FQ1 FQ2 IB epsilon dt old :
  (forall i, active IB i = true -> FQ1 i = FQ2 i) ->
  step spsolve nz ny nx A Cx Cy Cz Cs FQ1 IB epsilon dt old
  = step spsolve nz ny nx A Cx Cy Cz Cs FQ2 IB epsilon dt old.
Proof.
  intros H.
  assert (Hb : baa nz ny nx A Cs FQ1 IB dt old = baa nz ny nx A Cs FQ2 IB dt old).
  { extensionality i. unfold baa, RHS.
    destruct (active IB i && (i <? nz * ny * nx)%nat) eqn:Ha; [|reflexivity].
    apply andb_prop in Ha as [Ha _]. rewrite (H i Ha). reflexivity. }
  assert (Hp : provisional spsolve nz ny nx A Cs FQ1 IB dt old
               = provisional spsolve nz ny nx A Cs FQ2 IB dt old).
  { extensionality i. unfold provisional. rewrite Hb. reflexivity. }
  unfold step. rewrite Hp. reflexivity.
Qed.

Lemma run_FQ_congr spsolve nz ny nx A Cx Cy Cz Cs FQ1 FQ2 IB epsilon dts old :
  (forall i, active IB i = true -> FQ1 i = FQ2 i) ->
  run spsolve nz ny nx A Cx Cy Cz Cs FQ1 IB epsilon old dts
  = run spsolve nz ny nx A Cx Cy Cz Cs FQ2 IB epsilon old dts.
Proof.
  intros H. revert old. induction dts as [|dt dts IH]; intros old; cbn [run]; [reflexivity|].
  rewrite (step_FQ_congr spsolve nz ny nx A Cx Cy Cz Cs FQ1 FQ2 IB epsilon dt old H), IH.
  reflexivity.
Qed.

Lemma clamp_val_pos v : 0 < clamp_val v.
Proof.
  assert (Hk : 0 < kmin) by (unfold kmin; apply Rinv_0_lt_compat, pow_lt; lra).
  unfold clamp_val. destruct (Rlt_dec v kmin); lra.
Qed.


(** ** Exact solvers *)

(** What an exact solver gives at a time step: [Cs / dt] is finite at the
    active cells, so [epsilon] and [dt] are not zero where there is an
    active cell, and the solver returns finite values for finite
    right-hand sides. *)
Lemma exact_step spsolve gr t kx ky kz Ss IB epsilon dt :
  exact_for spsolve gr t kx ky kz Ss IB epsilon -> In dt (diffs t) ->
  (forall i, (i < nod gr)%nat -> active IB i = true ->
     exists c, fdiv (Cs_of gr Ss epsilon i) (Fin dt) = Fin c) /\
  (forall i, (i < nod gr)%nat -> active IB i = true -> epsilon <> 0 /\ dt <> 0) /\
  (forall b : nat -> R, exists x, forall i, (i < nod gr)%nat -> active IB i = true ->
     spsolve (nod gr) (active IB)
       (Maa (A_of gr kx ky kz IB (x_guarded gr)) (Cs_of gr Ss epsilon) IB dt)
       (fun j => Fin (b j)) i = Fin (x i)).
Proof.
  intros Hex Hin. destruct (Hex dt Hin) as [Hm Hs].
  assert (Hc : forall i, (i < nod gr)%nat -> active IB i = true ->
                 exists c, fdiv (Cs_of gr Ss epsilon i) (Fin dt) = Fin c).
  { intros i Hi Ha. destruct (Hm i i Hi Hi Ha Ha) as [m Em]. unfold Maa, Mdt in Em.
    rewrite Ha, Nat.eqb_refl in Em. cbn [andb] in Em.
    destruct (fadd_fin_inv _ _ _ Em) as (u & c & _ & Ec & _). eauto. }
  split; [exact Hc|split].
  - intros i Hi Ha. destruct (Hc i Hi Ha) as [c Ec].
    destruct (fdiv_fin_inv _ _ _ Ec) as [cs Ecs].
    split.
    + intros E. unfold Cs_of in Ecs. rewrite E in Ecs. exact (fdiv_zero_not_fin _ _ Ecs).
    + intros E. rewrite Ecs, E in Ec. exact (fdiv_zero_not_fin _ _ Ec).
  - intros b. destruct (Hs b) as [x [Hx _]]. eauto.
Qed.

(** With an exact solver, the heads returned at the cells of the grid that
    are not inactive are numbers at every time index. *)
Lemma core_heads_finite spsolve gr t kx ky kz Ss FQ HI IB epsilon :
  exact_for spsolve gr t kx ky kz Ss IB epsilon ->
  forall k, (k < List.length t)%nat ->
  forall j, (j < nod gr)%nat -> inact IB j = false ->
    exists v, nth k (o_Phi (fdm3t_core spsolve gr t kx ky kz Ss FQ HI IB epsilon))
                (fun _ => NaN) j = Fin v.
Proof.
  intros Hex k Hk. unfold fdm3t_core. cbv zeta. cbn [o_Phi].
  apply (run_invariant spsolve (nz gr) (ny gr) (nx gr) (A_of gr kx ky kz IB (x_guarded gr))
           (Cx_of gr kx IB (x_guarded gr)) (Cy_of gr ky IB) (Cz_of gr kz IB)
           (Cs_of gr Ss epsilon) FQ IB epsilon
           (fun o => forall j, (j < nod gr)%nat -> inact IB j = false -> exists v, o j = Fin v)).
  - intros j _ _. eexists. reflexivity.
  - intros dt o Hin Ho. destruct (exact_step _ _ _ _ _ _ _ _ _ dt Hex Hin) as (Hc & He & Hs).
    apply (step_finite spsolve (nz gr) (ny gr) (nx gr) (A_of gr kx ky kz IB (x_guarded gr))
             (Cx_of gr kx IB (x_guarded gr)) (Cy_of gr ky IB) (Cz_of gr kz IB)
             (Cs_of gr Ss epsilon) FQ IB epsilon dt o Hc Hs); [|exact Ho].
    intros i Hi Ha. exact (proj1 (He i Hi Ha)).
  - rewrite diffs_length. lia.
Qed.

(** [spsolve_diag] is exact for the systems whose active part is a
    diagonal matrix with non-zero finite diagonal entries. *)
Lemma spsolve_diag_exact gr t kx ky kz Ss IB epsilon :
  (forall dt, In dt (diffs t) -> forall i j, (i < nod gr)%nat -> (j < nod gr)%nat ->
     active IB i = true -> active IB j = true ->
     exists m, Maa (A_of gr kx ky kz IB (x_guarded gr)) (Cs_of gr Ss epsilon) IB dt i j = Fin m
               /\ (i = j -> m <> 0) /\ (i <> j -> m = 0)) ->
  exact_for spsolve_diag gr t kx ky kz Ss IB epsilon.
Proof.
  intros H dt Hdt.
  set (M := Maa (A_of gr kx ky kz IB (x_guarded gr)) (Cs_of gr Ss epsilon) IB dt).
  split.
  - intros i j Hi Hj Ha Hb. destruct (H dt Hdt i j Hi Hj Ha Hb) as (m & Em & _). eauto.
  - intros b. exists (fun i => b i / fval (M i i)). split.
    + intros i Hi Ha. destruct (H dt Hdt i i Hi Hi Ha Ha) as (m & Em & Hm & _).
      unfold spsolve_diag. fold M in Em. rewrite Em. simpl fval.
      apply fdiv_fin. apply Hm. reflexivity.
    + intros i Hi Ha. destruct (H dt Hdt i i Hi Hi Ha Ha) as (m & Em & Hm & _).
      fold M in Em.
      rewrite (sum_to_ext _ _ (fun j => if (i =? j)%nat then b j else 0)).
      * rewrite sum_to_single, (proj2 (Nat.ltb_lt _ _) Hi). reflexivity.
      * intros j Hj. destruct (active IB j) eqn:Hb.
        -- destruct (H dt Hdt i j Hi Hj Ha Hb) as (m' & Em' & Hm1 & Hm2).
           fold M in Em'. rewrite Em'. simpl fval.
           destruct (Nat.eqb_spec i j) as [<-|Hne].
           ++ rewrite Em in Em'. injection Em' as <-. rewrite Em. simpl fval.
              field. apply Hm. reflexivity.
           ++ rewrite (Hm2 Hne). ring.
        -- destruct (Nat.eqb_spec i j) as [<-|Hne]; [congruence|reflexivity].
Qed.

(** A head field equal to [c] at every fixed-head and active cell solves the
    reduced system of a step when the active cells have no prescribed flow
    and [Cs / dt] is finite at the active cells. *)
Lemma uniform_solves gr kx ky kz Ss FQ IB epsilon dt old c (cd : nat -> R) :
  (forall i, active IB i = true -> FQ i = 0) ->
  (forall j, (j < nod gr)%nat -> inact IB j = false -> old j = Fin c) ->
  (forall i, (i < nod gr)%nat -> active IB i = true ->
     fdiv (Cs_of gr Ss epsilon i) (Fin dt) = Fin (cd i)) ->
  solves (nod gr) (active IB)
    (fun i j => fval (Maa (A_of gr kx ky kz IB (x_guarded gr)) (Cs_of gr Ss epsilon) IB dt i j))
    (fun i => fval (baa (nz gr) (ny gr) (nx gr) (A_of gr kx ky kz IB (x_guarded gr))
                      (Cs_of gr Ss epsilon) FQ IB dt old i))
    (fun _ => c).
Proof.
  intros HF Hold Hcd i Hi Ha.
  set (A := A_of gr kx ky kz IB (x_guarded gr)). set (Cs := Cs_of gr Ss epsilon).
  assert (Hin : inact IB i = false).
  { destruct (cell_class IB i) as [(H1 & H2 & H3)|[(H1 & H2 & H3)|(H1 & H2 & H3)]];
      congruence. }
  assert (Hfix : forall j, (j < nz gr * ny gr * nx gr)%nat -> fxhd IB j = true ->
                   exists v, old j = Fin v).
  { intros j Hj Hf. exists c. apply Hold; [exact Hj|].
    destruct (cell_class IB j) as [(H1 & H2 & H3)|[(H1 & H2 & H3)|(H1 & H2 & H3)]];
      congruence. }
  unfold nod in *.
  rewrite (baa_fin (nz gr) (ny gr) (nx gr) A Cs FQ IB dt old i (cd i) c Ha Hi (Hcd i Hi Ha)
             (Hold i Hi Hin) Hfix).
  simpl fval. rewrite (HF i Ha).
  assert (E1 : sum_to (nz gr * ny gr * nx gr)
                 (fun j => if active IB j then fval (Maa A Cs IB dt i j) * c else 0)
               = sum_to (nz gr * ny gr * nx gr) (fun j => if active IB j then A i j * c else 0)
                 + cd i * c).
  { transitivity (sum_to (nz gr * ny gr * nx gr) (fun j => (if active IB j then A i j * c else 0)
                   + (if (i =? j)%nat then (if active IB j then cd i * c else 0) else 0))).
    - apply sum_to_ext. intros j _. unfold Maa, Mdt. rewrite Ha. cbn [andb].
      destruct (active IB j) eqn:Hj; [|destruct (i =? j)%nat; ring].
      destruct (Nat.eqb_spec i j) as [<-|Hne]; [|simpl; ring].
      unfold Cs. rewrite (Hcd i Hi Ha). simpl. ring.
    - rewrite sum_to_plus, sum_to_single, (proj2 (Nat.ltb_lt i _) Hi), Ha. reflexivity. }
  assert (E2 : sum_to (nz gr * ny gr * nx gr)
                 (fun j => if fxhd IB j then A i j * fval (old j) else 0)
               = sum_to (nz gr * ny gr * nx gr) (fun j => if fxhd IB j then A i j * c else 0)).
  { apply sum_to_ext. intros j Hj. destruct (fxhd IB j) eqn:Hf; [|reflexivity].
    assert (Hjn : inact IB j = false).
    { destruct (cell_class IB j) as [(H1 & H2 & H3)|[(H1 & H2 & H3)|(H1 & H2 & H3)]];
        congruence. }
    rewrite (Hold j Hj Hjn). reflexivity. }
  assert (E3 : sum_to (nz gr * ny gr * nx gr) (fun j => A i j * c)
               = sum_to (nz gr * ny gr * nx gr) (fun j => if active IB j then A i j * c else 0)
                 + sum_to (nz gr * ny gr * nx gr) (fun j => if fxhd IB j then A i j * c else 0)).
  { rewrite <- sum_to_plus. apply sum_to_ext. intros j _.
    destruct (cell_class IB j) as [(H1 & H2 & H3)|[(H1 & H2 & H3)|(H1 & H2 & H3)]];
      rewrite H2, H3; try ring.
    unfold A, A_of. rewrite A_of_inact; [ring|exact Hi|].
    right. split; [exact H1|]. intros <-. congruence. }
  assert (E4 : sum_to (nz gr * ny gr * nx gr) (fun j => A i j * c) = 0).
  { rewrite (sum_to_ext _ _ (fun j => c * A i j)) by (intros; ring).
    rewrite sum_to_scal. unfold A, A_of. rewrite assemble_row_sum by exact Hi. ring. }
  rewrite E1, E2. lra.
Qed.
(** C4: the assembled matrix [A] of lines 138-143. Each entry of the COO
    matrix is the sum of the contributions of all six blocks (duplicate
    [(i, j)] pairs add up). An off-diagonal entry [A[i,j]] is minus the
    conductance between cells [i] and [j] (zero when they are not
    adjacent). The diagonal entry [A[i,i]] is the sum of the conductances
    from [i] to its neighbours. Every row of [A] sums to zero. *)
Theorem assemble_spec nz ny nx Cx Cy Cz i (Hi : (i < nz * ny * nx)%nat) :
  (forall j, A0 nz ny nx Cx Cy Cz i j
     = coo_entry (blk_EW nz ny nx Cx) i j + coo_entry (blk_WE nz ny nx Cx) i j
       + coo_entry (blk_NS nz ny nx Cy) i j + coo_entry (blk_SN nz ny nx Cy) i j
       + coo_entry (blk_BT nz ny nx Cz) i j + coo_entry (blk_TB nz ny nx Cz) i j) /\
  (forall j, i <> j -> assemble nz ny nx Cx Cy Cz i j = - cond nz ny nx Cx Cy Cz i j) /\
  assemble nz ny nx Cx Cy Cz i i = sum_to (nz * ny * nx) (fun j => cond nz ny nx Cx Cy Cz i j) /\
  sum_to (nz * ny * nx) (fun j => assemble nz ny nx Cx Cy Cz i j) = 0.
Proof.
  assert (Hs : sum_to (nz * ny * nx) (fun k => A0 nz ny nx Cx Cy Cz i k)
               = sum_to (nz * ny * nx) (fun k => cond nz ny nx Cx Cy Cz i k)).
  { apply sum_to_ext. intros k _. apply A0_cond_any; exact Hi. }
  split; [|split; [|split]].
  - intros j. unfold A0, coo_triples. rewrite !coo_entry_app. lra.
  - intros j Hij. unfold assemble. rewrite (proj2 (Nat.eqb_neq i j) Hij).
    rewrite A0_cond_any by exact Hi. lra.
  - unfold assemble. rewrite Nat.eqb_refl, A0_cond_any, cond_diag_any by exact Hi.
    rewrite Hs. lra.
  - unfold assemble.
    rewrite sum_to_plus, sum_to_opp.
    rewrite (sum_to_single (nz * ny * nx) i (fun _ => sum_to (nz * ny * nx) (fun k => A0 nz ny nx Cx Cy Cz i k))).
    rewrite (proj2 (Nat.ltb_lt i _) Hi).
    change (A0 nz ny nx Cx Cy Cz i) with (fun k => A0 nz ny nx Cx Cy Cz i k). lra.
Qed.

(** ** Argument checks and the caller's arrays *)

Lemma shape_eqb_spec s1 s2 : shape_eqb s1 s2 = true <-> s1 = s2.
Proof.
  revert s2. induction s1 as [|a s1 IH]; intros [|b s2]; simpl;
    try (split; congruence).
  rewrite andb_true_iff, Nat.eqb_eq, IH. split; [intros [-> ->]; reflexivity|].
  intros E. injection E as -> ->. split; reflexivity.
Qed.

Lemma check_shapes_some g fields e :
  check_shapes g fields = Some e ->
  exists name s, In (name, s) fields /\ s <> g /\ e = AssertionError (shape_msg name s g).
Proof.
  induction fields as [|[name s] fs IH]; simpl; [discriminate|].
  destruct (shape_eqb s g) eqn:E; simpl.
  - intros H. destruct (IH H) as (n & s' & Hin & Hne & ->). exists n, s'. tauto.
  - intros H. injection H as <-. exists name, s. split; [left; reflexivity|].
    split; [|reflexivity]. intros ->. rewrite (proj2 (shape_eqb_spec g g) eq_refl) in E.
    discriminate.
Qed.

Lemma check_shapes_none g fields :
  check_shapes g fields = None -> forall name s, In (name, s) fields -> s = g.
Proof.
  induction fields as [|[name s] fs IH]; simpl; [tauto|].
  destruct (shape_eqb s g) eqn:E; simpl; [|discriminate].
  intros H n s' [Heq|Hin]; [|exact (IH H n s' Hin)].
  injection Heq as -> ->. apply shape_eqb_spec. exact E.
Qed.

Lemma check_shapes_ok g fields :
  (forall name s, In (name, s) fields -> s = g) -> check_shapes g fields = None.
Proof.
  induction fields as [|[name s] fs IH]; simpl; intros H; [reflexivity|].
  rewrite (proj2 (shape_eqb_spec s g) (H name s (or_introl eq_refl))). simpl.
  apply IH. intros n s' Hin. apply (H n s'). right. exact Hin.
Qed.

Lemma clamp_val_idem v : clamp_val (clamp_val v) = clamp_val v.
Proof.
  unfold clamp_val. destruct (Rlt_dec v kmin) as [H|H].
  - destruct (Rlt_dec kmin kmin); [lra|reflexivity].
  - destruct (Rlt_dec v kmin); [lra|reflexivity].
Qed.

Lemma size_gshape gr : size (gshape gr) = nod gr.
Proof. unfold size, gshape, nod. simpl. lia. Qed.

(** The heap after the three in-place clamps of lines 83-85. *)
Lemma clamp3_spec (h : heap) lkx lky lkz l :
  let h1 := upd h lkx (clamp (h lkx)) in
  let h2 := upd h1 lky (clamp (h1 lky)) in
  let h3 := upd h2 lkz (clamp (h2 lkz)) in
  shape (h3 l) = shape (h l) /\
  forall i, data (h3 l) i
            = if (l =? lkx)%nat || (l =? lky)%nat || (l =? lkz)%nat
              then clamp_val (data (h l) i) else data (h l) i.
Proof.
  cbv zeta. unfold upd.
  repeat match goal with
         | |- context [ (?a =? ?b)%nat ] => destruct (Nat.eqb_spec a b)
         end; subst; try congruence; simpl;
    (split; [reflexivity|intros i; rewrite ?clamp_val_idem; reflexivity]).
Qed.

(** Once the shape checks of lines 74-81 have passed, [fdm3t] raises no
    [AssertionError] and leaves the caller's heap with the three clamps. *)
Lemma fdm3t_after_checks spsolve h gr t kxyz Ss FQ HI IBOUND epsilon lkx lky lkz :
  unpack_kxyz kxyz = inr (lkx, lky, lkz) ->
  check_shapes (gshape gr)
    [("kx", shape (h lkx)); ("ky", shape (h lky)); ("kz", shape (h lkz)); ("Ss", shape (h Ss))]%string
  = None ->
  let h1 := upd h lkx (clamp (h lkx)) in
  let h2 := upd h1 lky (clamp (h1 lky)) in
  let h3 := upd h2 lkz (clamp (h2 lkz)) in
  snd (fdm3t spsolve h gr t kxyz Ss FQ HI IBOUND epsilon) = h3 /\
  forall msg, fst (fdm3t spsolve h gr t kxyz Ss FQ HI IBOUND epsilon) <> inl (AssertionError msg).
Proof.
  intros Hu Hc. unfold fdm3t. rewrite Hu, Hc. cbv zeta.
  repeat match goal with
         | |- context [ if ?c then _ else _ ] => destruct c
         | |- context [ match ?l with [] => _ | _ :: _ => _ end ] => destruct l
         end;
    simpl; split; try reflexivity; intros msg H; discriminate H.
Qed.

(** Evaluation of the model on concrete inputs, leaving the real-number
    operations and the float comparisons symbolic; [decide_model] then
    settles the comparisons [r == 0] and [r < 0] of closed real
    expressions. *)
Ltac run_model :=
  cbv -[Rplus Rmult Ropp Rinv Rdiv Rminus IZR INR ln PI Rlt_dec Rpow_def.pow is_zero is_neg];
  cbn -[Rplus Rmult Ropp Rinv Rdiv Rminus IZR INR ln PI Rlt_dec is_zero is_neg].

Ltac decide_step :=
  match goal with
  | |- context [is_zero ?r] =>
      first [ rewrite (is_zero_true r) by lra | rewrite (is_zero_false r) by lra ]
  | |- context [is_neg ?r] =>
      first [ rewrite (is_neg_true r) by lra | rewrite (is_neg_false r) by lra ]
  end.

Ltac decide_model :=
  repeat (decide_step; cbn -[Rplus Rmult Ropp Rinv Rdiv Rminus IZR INR ln PI Rlt_dec is_zero is_neg]).

Ltac eval_model := run_model; decide_model.

Ltac real_close := first [ lra | field; repeat split; lra ].
Ltac fin_close := first [ reflexivity | f_equal; real_close | real_close ].

Lemma assemble_spec_witness :
  sum_to (1 * 1 * 2) (fun j => assemble 1 1 2 (fun _ _ _ => 1) (fun _ _ _ => 0) (fun _ _ _ => 0) 0 j) = 0 /\
  assemble 1 1 2 (fun _ _ _ => 1) (fun _ _ _ => 0) (fun _ _ _ => 0) 0 1
  = - cond 1 1 2 (fun _ _ _ => 1) (fun _ _ _ => 0) (fun _ _ _ => 0) 0 1.
Proof.
  destruct (assemble_spec 1 1 2 (fun _ _ _ => 1) (fun _ _ _ => 0) (fun _ _ _ => 0) 0 ltac:(lia))
    as [_ [Hoff [_ Hrow]]].
  split; [exact Hrow|apply Hoff; lia].
Defined.

(** C1 (code bug): [Q], [Qs] and the face flows [Qx], [Qy], [Qz] of a
    step (lines 176-184) are computed from the solution of line 172, in
    which the fixed-head cells still hold the 0 of [np.zeros]; the fixed
    heads are written back only afterwards (line 188).  So the reported
    flows do not describe the returned heads, and the balance of a cell
    next to a fixed head fails.  Two cells in a row, unit conductance
    between them, cell 0 active with [HI = 0], cell 1 fixed at [HI = 2],
    [Ss = Volume = 1], [FQ = 0], [epsilon = 1], one step of [dt = 1]; the
    solver [spsolve_diag] is exact there.  The returned heads are 1 and 2,
    so [A.dot(Phi[1])] at cell 0 is [1 - 2 = -1] and the flow through the
    face is [-(2 - 1) = -1] (from cell 1 into cell 0).  The code reports
    [Q = 1] and [Qx = 1] (from cell 0 into cell 1) with [Qs = -1], and
    [Q = -1] at the fixed cell.  The face inflow [-Qx] plus [FQ] minus
    [Qs] is [-1 + 0 + 1 = 0], not [Q = 1]. *)
Theorem fdm3t_flows_use_zero_fixed_heads :
  let gr := unit_grid 1 1 2 false in
  let HI := fun i => if (i =? 1)%nat then 2 else 0 in
  let out := fdm3t_core spsolve_diag gr [0; 1] (fun _ => 1) (fun _ => 1) (fun _ => 1)
               (fun _ => 1) (fun _ => 0) HI IB_fix 1 in
  let A := A_of gr (fun _ => 1) (fun _ => 1) (fun _ => 1) IB_fix (x_guarded gr) in
  exact_for spsolve_diag gr [0; 1] (fun _ => 1) (fun _ => 1) (fun _ => 1) (fun _ => 1) IB_fix 1 /\
  nth 1 (o_Phi out) (fun _ => NaN) 0%nat = Fin 1 /\
  nth 1 (o_Phi out) (fun _ => NaN) 1%nat = Fin 2 /\
  A 0%nat 0%nat = 1 /\ A 0%nat 1%nat = -1 /\
  A 0%nat 0%nat * 1 + A 0%nat 1%nat * 2 = -1 /\
  nth 0 (o_Q out) (fun _ => NaN) 0%nat = Fin 1 /\
  nth 0 (o_Qx out) (fun _ _ _ => NaN) 0%nat 0%nat 0%nat = Fin 1 /\
  nth 0 (o_Qs out) (fun _ => NaN) 0%nat = Fin (-1) /\
  nth 0 (o_Q out) (fun _ => NaN) 1%nat = Fin (-1) /\
  - 1 + 0 - (- 1) <> 1.
Proof.
  intros gr HI out A.
  split; [|repeat split; unfold out, A, gr, HI; eval_model; fin_close].
  apply spsolve_diag_exact. intros dt Hdt i j Hi Hj Ha Hb.
  simpl in Hdt. destruct Hdt as [<-|[]].
  destruct i as [|[|i]]; [|discriminate Ha|unfold nod in Hi; simpl in Hi; lia].
  destruct j as [|[|j]]; [|discriminate Hb|unfold nod in Hj; simpl in Hj; lia].
  eexists. split; [eval_model; reflexivity|]. split; [intros _; lra|intros H; congruence].
Qed.

(** C2: at a fixed-head cell ([IBOUND < 0]) the head is [HI] at every
    time index [0 <= k < len(t)]. *)
Theorem fdm3t_fixed_heads spsolve gr t kx ky kz Ss FQ HI IB epsilon k i
  (Hk : (k < List.length t)%nat) (Hf : fxhd IB i = true) :
  nth k (o_Phi (fdm3t_core spsolve gr t kx ky kz Ss FQ HI IB epsilon)) (fun _ => NaN) i = Fin (HI i).
Proof.
  unfold fdm3t_core. cbv zeta. cbn [o_Phi].
  match goal with
  | |- nth k (?old :: map s_Phi (run ?sp ?a ?b ?c ?A ?x ?y ?z ?cs ?fq ?ib ?e ?old ?dts)) _ i = _ =>
      destruct (phis_fixed sp a b c A x y z cs fq ib e dts old k i Hf) as [E|E];
        [exact E|rewrite diffs_length in E; lia]
  end.
Qed.

Lemma fdm3t_fixed_heads_witness :
  nth 1 (o_Phi (fdm3t_core spsolve_diag (unit_grid 1 1 1 false) [0; 1] (fun _ => 1) (fun _ => 1)
                  (fun _ => 1) (fun _ => 1) (fun _ => 0) (fun _ => 3) (fun _ => (-1)%Z) 1))
    (fun _ => NaN) 0%nat = Fin 3.
Proof.
  apply (fdm3t_fixed_heads spsolve_diag (unit_grid 1 1 1 false) [0; 1] (fun _ => 1) (fun _ => 1)
           (fun _ => 1) (fun _ => 1) (fun _ => 0) (fun _ => 3) (fun _ => (-1)%Z) 1 1 0).
  - simpl. lia.
  - reflexivity.
Defined.

(** [Phi[0] = HI] (line 158), including at inactive cells: the one-cell
    inactive grid with [HI = 0] returns [0], not NaN, at time index 0. *)
Lemma fdm3t_inactive_heads_counterexample :
  nth 0 (o_Phi (fdm3t_core spsolve_diag (unit_grid 1 1 1 false) [0; 1] (fun _ => 1) (fun _ => 1)
                  (fun _ => 1) (fun _ => 1) (fun _ => 0) (fun _ => 0) (fun _ => 0%Z) 1))
    (fun _ => NaN) 0%nat = Fin 0.
Proof. reflexivity. Qed.

(** C3 (amended): at an inactive cell ([IBOUND == 0]) the head is NaN at
    every time index [1 <= k < len(t)], and [HI] at time index 0. *)
Theorem fdm3t_inactive_heads spsolve gr t kx ky kz Ss FQ HI IB epsilon k i
  (Hk : (k < List.length t)%nat) (Hi : inact IB i = true) :
  nth k (o_Phi (fdm3t_core spsolve gr t kx ky kz Ss FQ HI IB epsilon)) (fun _ => NaN) i
  = if (k =? 0)%nat then Fin (HI i) else NaN.
Proof.
  unfold fdm3t_core. cbv zeta. cbn [o_Phi].
  destruct k as [|k]; [reflexivity|]. simpl Nat.eqb. cbv iota.
  match goal with
  | |- nth (S k) (?old :: map s_Phi (run ?sp ?a ?b ?c ?A ?x ?y ?z ?cs ?fq ?ib ?e ?old ?dts)) _ i = _ =>
      apply (phis_inact sp a b c A x y z cs fq ib e dts old (S k) i Hi);
      rewrite diffs_length; lia
  end.
Qed.

Lemma fdm3t_inactive_heads_witness :
  nth 1 (o_Phi (fdm3t_core spsolve_diag (unit_grid 1 1 1 false) [0; 1] (fun _ => 1) (fun _ => 1)
                  (fun _ => 1) (fun _ => 1) (fun _ => 0) (fun _ => 0) (fun _ => 0%Z) 1))
    (fun _ => NaN) 0%nat = if (1 =? 0)%nat then Fin 0 else NaN.
Proof.
  apply (fdm3t_inactive_heads spsolve_diag (unit_grid 1 1 1 false) [0; 1] (fun _ => 1) (fun _ => 1)
           (fun _ => 1) (fun _ => 1) (fun _ => 0) (fun _ => 0) (fun _ => 0%Z) 1 1 0).
  - simpl. lia.
  - reflexivity.
Defined.

(** C5: on the axial grid with [x = 0, 1, 2], [xm = 0.5, 1.5], [DZ = 1],
    [kx = 1] and all cells active, line 103 replaces [x[0] = 0] by the
    proxy [0.1 * x[1] = 1/10], and the conductance [Cx[0,0,0]] between the
    two columns depends on the proxy: it differs for the proxies [1/10] and
    [1/20].  Line 119 adds [Rx2[:, :, :-1]], whose first entry is
    [log(xm[0] / x[0])], into [Cx[:, :, 0]]. *)
Theorem axial_proxy_changes_Cx :
  let gr := unit_grid 1 1 2 true in
  (forall i, x_guarded gr i = xcopy gr (1 / 10) i) /\
  Cx_of gr (fun _ => 1) (fun _ => 1%Z) (xcopy gr (1 / 10)) 0 0 0
  <> Cx_of gr (fun _ => 1) (fun _ => 1%Z) (xcopy gr (1 / 20)) 0 0 0.
Proof.
  split.
  - intros i. unfold x_guarded, xcopy. destruct (i =? 0)%nat; [|reflexivity].
    destruct (Rlt_dec 0 (gx (unit_grid 1 1 2 true) 0)) as [H|H]; simpl in *; lra.
  - run_model. intros H. apply (f_equal Rinv) in H. rewrite !Rinv_inv in H.
    assert (Hc : 0 < 1 / (2 * PI * 1 * 1)).
    { pose proof PI_RGT_0. unfold Rdiv. apply Rmult_lt_0_compat; [lra|].
      apply Rinv_0_lt_compat. lra. }
    replace ((INR 0 + / 2) / (1 / 10)) with 5 in H by (simpl; field).
    replace ((INR 0 + / 2) / (1 / 20)) with 10 in H by (simpl; field).
    assert (Hl : ln 5 < ln 10) by (apply ln_increasing; lra).
    apply Rplus_eq_reg_l in H. apply Rmult_eq_reg_l in H; lra.
Qed.

(** C9: the [epsilon] argument of [Fdm3t.__init__] has no effect: the
    constructor passes [epsilon=1.0] to [fdm3t] (line 282). *)
Theorem Fdm3t_init_epsilon_unused spsolve h gr t kxyz Ss FQ HI IBOUND e1 e2 :
  Fdm3t_init spsolve h gr t kxyz Ss FQ HI IBOUND e1 = Fdm3t_init spsolve h gr t kxyz Ss FQ HI IBOUND e2.
Proof. reflexivity. Qed.

(** The two-cell grid used for C8: cell 0 active with [HI = 1], cell 1
    fixed at [HI = 0], unit conductance between them, [Ss = Volume = 1],
    [epsilon = 1].  The solver [spsolve_diag] is exact there.  One step of
    [dt = 2] gives the head [1/3] at cell 0, two steps of [dt = 1] give
    [1/4]: the implicit scheme depends on the partition of the interval. *)
Lemma fdm3t_partition_counterexample :
  let gr := unit_grid 1 1 2 false in
  let HI := fun i => if (i =? 0)%nat then 1 else 0 in
  let IB := fun i => if (i =? 0)%nat then 1%Z else (-1)%Z in
  let Phi t := o_Phi (fdm3t_core spsolve_diag gr t (fun _ => 1) (fun _ => 1) (fun _ => 1)
                        (fun _ => 1) (fun _ => 0) HI IB 1) in
  exact_for spsolve_diag gr [0; 2] (fun _ => 1) (fun _ => 1) (fun _ => 1) (fun _ => 1) IB 1 /\
  exact_for spsolve_diag gr [0; 1; 2] (fun _ => 1) (fun _ => 1) (fun _ => 1) (fun _ => 1) IB 1 /\
  nth 1 (Phi [0; 2]) (fun _ => NaN) 0%nat = Fin (1 / 3) /\
  nth 2 (Phi [0; 1; 2]) (fun _ => NaN) 0%nat = Fin (1 / 4) /\
  nth 1 (Phi [0; 2]) (fun _ => NaN) 0%nat <> nth 2 (Phi [0; 1; 2]) (fun _ => NaN) 0%nat.
Proof.
  assert (Hex : forall t, (forall dt, In dt (diffs t) -> dt = 1 \/ dt = 2) ->
    exact_for spsolve_diag (unit_grid 1 1 2 false) t (fun _ => 1) (fun _ => 1) (fun _ => 1)
      (fun _ => 1) (fun i => if (i =? 0)%nat then 1%Z else (-1)%Z) 1).
  { intros t Ht. apply spsolve_diag_exact. intros dt Hdt i j Hi Hj Ha Hb.
    destruct i as [|[|i]]; [|cbv in Ha; discriminate|unfold nod in Hi; simpl in Hi; lia].
    destruct j as [|[|j]]; [|cbv in Hb; discriminate|unfold nod in Hj; simpl in Hj; lia].
    destruct (Ht dt Hdt) as [->| ->];
      (eexists; split; [eval_model; reflexivity|]; split; [intros _; lra|intros H; congruence]). }
  split; [|split; [|split; [|split]]].
  - apply Hex. intros dt Hdt. simpl in Hdt. lra.
  - apply Hex. intros dt Hdt. simpl in Hdt. lra.
  - eval_model. fin_close.
  - eval_model. fin_close.
  - eval_model. intros H. injection H as H. field_simplify in H. lra.
Qed.

(** C8 (amended): the time loop keeps no state besides the head field.
    Restarting the solve at time index [k], from the heads returned at [k]
    over the remaining times [t[k:]], gives the same heads at every later
    time index and every cell of the grid, provided the heads returned at
    [k] are numbers at the cells that are not inactive (with an exact
    solver they are, see [core_heads_finite]); a NaN or an infinity there
    is not carried over by [fval]. *)
Theorem fdm3t_restart spsolve gr t kx ky kz Ss FQ HI IB epsilon k m i
  (Hkm : (k + S m < List.length t)%nat) (Hi : (i < nod gr)%nat) :
  let Phi := o_Phi (fdm3t_core spsolve gr t kx ky kz Ss FQ HI IB epsilon) in
  (forall j, (j < nod gr)%nat -> inact IB j = false ->
     exists v, nth k Phi (fun _ => NaN) j = Fin v) ->
  nth (k + S m) Phi (fun _ => NaN) i
  = nth (S m) (o_Phi (fdm3t_core spsolve gr (skipn k t) kx ky kz Ss FQ
                        (fun j => fval (nth k Phi (fun _ => NaN) j)) IB epsilon))
      (fun _ => NaN) i.
Proof.
  cbv zeta. intros Hfin. unfold fdm3t_core in *. cbv zeta in *. cbn [o_Phi] in *.
  rewrite diffs_skipn.
  assert (Hk : (k <= List.length (diffs t))%nat) by (rewrite diffs_length; lia).
  replace (k + S m)%nat with (S (k + m)) by lia. simpl nth at 1 3.
  rewrite nth_skipn_add, skipn_map_comm.
  rewrite skipn_run by exact Hk.
  apply run_congr_lt; [|exact Hi].
  intros j Hj Hn. destruct (Hfin j Hj Hn) as [v E]. rewrite E. reflexivity.
Qed.

Lemma fdm3t_restart_witness :
  let gr := unit_grid 1 1 2 false in
  let HI := fun i => if (i =? 0)%nat then 1 else 0 in
  let IB := fun i => if (i =? 0)%nat then 1%Z else (-1)%Z in
  let Phi := o_Phi (fdm3t_core spsolve_diag gr [0; 1; 2] (fun _ => 1) (fun _ => 1) (fun _ => 1)
                      (fun _ => 1) (fun _ => 0) HI IB 1) in
  nth (1 + 1) Phi (fun _ => NaN) 0%nat
  = nth 1 (o_Phi (fdm3t_core spsolve_diag gr (skipn 1 [0; 1; 2]) (fun _ => 1) (fun _ => 1)
                    (fun _ => 1) (fun _ => 1) (fun _ => 0)
                    (fun j => fval (nth 1 Phi (fun _ => NaN) j)) IB 1))
      (fun _ => NaN) 0%nat.
Proof.
  apply (fdm3t_restart spsolve_diag (unit_grid 1 1 2 false) [0; 1; 2] (fun _ => 1) (fun _ => 1)
           (fun _ => 1) (fun _ => 1) (fun _ => 0) (fun i => if (i =? 0)%nat then 1 else 0)
           (fun i => if (i =? 0)%nat then 1%Z else (-1)%Z) 1 1 0 0).
  - simpl. lia.
  - unfold nod. simpl. lia.
  - intros j Hj _. unfold nod in Hj. simpl in Hj.
    destruct j as [|[|j]]; [| |lia]; eexists; eval_model; reflexivity.
Defined.

(** C6 (code bug): the shape of [HI] is never checked.  [fdm3t] checks
    the shapes of [kx], [ky], [kz] and [Ss] only (lines 74-81), and in
    [Fdm3t.__init__] the assertion labelled ["gr.shape != HI.shape"]
    (lines 264-268) tests [Ss].  On the one-cell grid of shape (1, 1, 1),
    an [HI] of shape (1,) passes both entry points without an error, while
    an [Ss] of shape (2, 1, 1) next to a well-shaped [HI] is reported as an
    [HI] mismatch. *)
Theorem Fdm3t_init_HI_unchecked :
  let gr := unit_grid 1 1 1 false in
  shape (heap_flat_HI 4%nat) <> gshape gr /\
  (exists out, fst (Fdm3t_init spsolve_diag heap_flat_HI gr [0; 1] (KArr 0) 3 5 4 unit_ibound 1)
               = inr out) /\
  (exists out, fst (fdm3t spsolve_diag heap_flat_HI gr [0; 1] (KArr 0) 3 5 4 unit_ibound 1)
               = inr out) /\
  shape (heap_bad_Ss 1%nat) <> gshape gr /\ shape (heap_bad_Ss 4%nat) = gshape gr /\
  fst (Fdm3t_init spsolve_diag heap_bad_Ss gr [0; 1] (KTuple [0; 2]%nat) 1 3 4 unit_ibound 1)
  = inl (AssertionError "gr.shape != HI.shape").
Proof.
  split; [intros H; vm_compute in H; discriminate H|].
  split; [eexists; reflexivity|].
  split; [eexists; reflexivity|].
  split; [intros H; vm_compute in H; discriminate H|].
  split; reflexivity.
Qed.

(** [t = [1, 0]] (a negative step) on the one-cell grid: [fdm3t] raises no
    error and returns an output with one time step. *)
Lemma fdm3t_time_vector_counterexample :
  exists out,
    fst (fdm3t spsolve_diag unit_heap (unit_grid 1 1 1 false) [1; 0] (KArr 0) 1 2 3 unit_ibound 1)
    = inr out /\ List.length (o_Q out) = 1%nat.
Proof. eexists. split; reflexivity. Qed.

(** C7 (amended): [fdm3t] does not validate the time vector.  With
    well-shaped arrays and a grid with at least one layer, row and column,
    [t = []] raises ["negative dimensions are not allowed"] (from
    [np.zeros((len(t) - 1, gr.nod))]), and any other [t], whatever the
    signs of its steps and even with a single point, returns an output
    with [len(t)] head fields and one flow field per step [np.diff(t)]. *)
Theorem fdm3t_time_vector spsolve h gr t kxyz Ss FQ HI IBOUND epsilon lkx lky lkz
  (Hu : unpack_kxyz kxyz = inr (lkx, lky, lkz))
  (Hk : shape (h lkx) = gshape gr /\ shape (h lky) = gshape gr /\ shape (h lkz) = gshape gr)
  (Hs : shape (h Ss) = gshape gr) (HF : shape (h FQ) = gshape gr) (HH : shape (h HI) = gshape gr)
  (Hib : ishape IBOUND = gshape gr)
  (Hd : (0 < nz gr)%nat /\ (0 < ny gr)%nat /\ (0 < nx gr)%nat) :
  let res := fst (fdm3t spsolve h gr t kxyz Ss FQ HI IBOUND epsilon) in
  match t with
  | [] => res = inl (ValueError "negative dimensions are not allowed")
  | _ => exists out, res = inr out /\ o_t out = t /\
           List.length (o_Phi out) = List.length t /\
           List.length (o_Q out) = List.length (diffs t)
  end.
Proof.
  destruct Hk as (H1 & H2 & H3). destruct Hd as (Dz & Dy & Dx).
  assert (Ez : (nz gr =? 0)%nat = false) by (apply Nat.eqb_neq; lia).
  assert (Ey : (ny gr =? 0)%nat = false) by (apply Nat.eqb_neq; lia).
  assert (Ex : (nx gr =? 0)%nat = false) by (apply Nat.eqb_neq; lia).
  cbv zeta. unfold fdm3t. rewrite Hu.
  rewrite check_shapes_ok
    by (intros n s Hin; simpl in Hin;
        destruct Hin as [E|[E|[E|[E|[]]]]]; injection E as <- <-; assumption).
  cbv zeta. rewrite Hib, size_gshape, Nat.eqb_refl. cbn [negb].
  rewrite Ez, Ey, Ex, andb_false_r. cbn [andb orb].
  destruct t as [|a t']; [reflexivity|].
  destruct (clamp3_spec h lkx lky lkz HI) as [EH _].
  destruct (clamp3_spec h lkx lky lkz FQ) as [EF _].
  cbv zeta in EH, EF.
  unfold broadcastable. rewrite EH, EF, HH, HF, size_gshape, Nat.eqb_refl. cbn [orb negb].
  eexists. split.
  - destruct (diffs (a :: t')); [reflexivity|].
    destruct (nod gr =? 1)%nat; reflexivity.
  - unfold fdm3t_core. cbv zeta. cbn [o_t o_Phi o_Q].
    rewrite length_cons, !length_map, !run_length. split; [reflexivity|].
    rewrite diffs_length. simpl. split; lia.
Qed.

Lemma fdm3t_time_vector_witness :
  let res := fst (fdm3t spsolve_diag unit_heap (unit_grid 1 1 1 false) [1; 0] (KArr 0) 1 2 3
                    unit_ibound 1) in
  exists out, res = inr out /\ o_t out = [1; 0] /\
    List.length (o_Phi out) = List.length [1; 0] /\
    List.length (o_Q out) = List.length (diffs [1; 0]).
Proof.
  apply (fdm3t_time_vector spsolve_diag unit_heap (unit_grid 1 1 1 false) [1; 0] (KArr 0) 1 2 3
           unit_ibound 1 0 0 0); try reflexivity.
  - split; [reflexivity|split; reflexivity].
  - cbn. lia.
Defined.



(** A [kxyz] array of shape (2,) on the one-cell grid, holding [0 < 1e-20]:
    [fdm3t] raises [AssertionError] before line 83, and the caller's array
    still holds [0]. *)
Lemma fdm3t_clamps_counterexample :
  let h : heap := fun _ => mkArr [2%nat] (fun _ => 0) in
  let r := fdm3t spsolve_diag h (unit_grid 1 1 1 false) [0; 1] (KArr 0) 0 0 0 unit_ibound 1 in
  (exists msg, fst r = inl (AssertionError msg)) /\ data (snd r 0%nat) 0%nat = 0 /\ 0 < kmin.
Proof.
  split; [eexists; reflexivity|split; [reflexivity|]].
  unfold kmin. apply Rinv_0_lt_compat, pow_lt. lra.
Qed.

(** C10 (amended): when [kxyz] unpacks to the arrays at [lkx], [lky],
    [lkz] (one array gives [lkx = lky = lkz]) and the shape checks of
    [kx], [ky], [kz], [Ss] pass, [fdm3t] clamps the caller's arrays at
    these locations in place: afterwards every entry there is
    [max(v, 1e-20)] of its old value [v] (one array named several times is
    clamped as if once), and every other array of the heap is unchanged,
    whatever happens later in the call.  When a shape check fails, no
    array is modified. *)
Theorem fdm3t_clamps_in_place spsolve h gr t kxyz Ss FQ HI IBOUND epsilon lkx lky lkz
  (Hu : unpack_kxyz kxyz = inr (lkx, lky, lkz)) :
  let h' := snd (fdm3t spsolve h gr t kxyz Ss FQ HI IBOUND epsilon) in
  let ok := shape (h lkx) = gshape gr /\ shape (h lky) = gshape gr /\
            shape (h lkz) = gshape gr /\ shape (h Ss) = gshape gr in
  (ok -> forall l, shape (h' l) = shape (h l) /\
          forall i, data (h' l) i
                    = if (l =? lkx)%nat || (l =? lky)%nat || (l =? lkz)%nat
                      then clamp_val (data (h l) i) else data (h l) i) /\
  (~ ok -> h' = h).
Proof.
  cbv zeta. split.
  - intros (H1 & H2 & H3 & H4).
    assert (Hc : check_shapes (gshape gr)
                   [("kx", shape (h lkx)); ("ky", shape (h lky)); ("kz", shape (h lkz));
                    ("Ss", shape (h Ss))]%string = None).
    { apply check_shapes_ok. intros n s Hin. simpl in Hin.
      destruct Hin as [E|[E|[E|[E|[]]]]]; injection E as <- <-; assumption. }
    destruct (fdm3t_after_checks spsolve h gr t kxyz Ss FQ HI IBOUND epsilon lkx lky lkz Hu Hc)
      as [E _].
    rewrite E. intros l. exact (clamp3_spec h lkx lky lkz l).
  - intros Hn.
    destruct (check_shapes (gshape gr)
                [("kx", shape (h lkx)); ("ky", shape (h lky)); ("kz", shape (h lkz));
                 ("Ss", shape (h Ss))]%string) as [e|] eqn:Hc.
    + unfold fdm3t. rewrite Hu, Hc. reflexivity.
    + exfalso. apply Hn. pose proof (check_shapes_none _ _ Hc) as Hall.
      repeat split; eapply Hall; simpl; tauto.
Qed.

Lemma fdm3t_clamps_in_place_witness :
  let h' := snd (fdm3t spsolve_diag unit_heap (unit_grid 1 1 1 false) [0; 1] (KArr 0) 1 2 3
                   unit_ibound 1) in
  let ok := shape (unit_heap 0%nat) = gshape (unit_grid 1 1 1 false) /\
            shape (unit_heap 0%nat) = gshape (unit_grid 1 1 1 false) /\
            shape (unit_heap 0%nat) = gshape (unit_grid 1 1 1 false) /\
            shape (unit_heap 1%nat) = gshape (unit_grid 1 1 1 false) in
  (ok -> forall l, shape (h' l) = shape (unit_heap l) /\
          forall i, data (h' l) i
                    = if (l =? 0)%nat || (l =? 0)%nat || (l =? 0)%nat
                      then clamp_val (data (unit_heap l) i) else data (unit_heap l) i) /\
  (~ ok -> h' = unit_heap).
Proof.
  apply (fdm3t_clamps_in_place spsolve_diag unit_heap (unit_grid 1 1 1 false) [0; 1] (KArr 0) 1 2 3
           unit_ibound 1 0 0 0).
  reflexivity.
Defined.

(** ** Further properties of the solver and of [Fdm3t] *)


(** The net flow [Q = A.dot(Phi)] of line 176 is 0 at every inactive cell,
    at every time step: the row of [A] at an inactive cell is zero, and
    the sparse product skips its entries. *)
Theorem fdm3t_Q_inactive_zero spsolve gr t kx ky kz Ss FQ HI IB epsilon k i
  (Hi : (i < nod gr)%nat) (Hin : inact IB i = true) :
  nth k (o_Q (fdm3t_core spsolve gr t kx ky kz Ss FQ HI IB epsilon)) (fun _ => Fin 0) i = Fin 0.
Proof.
  unfold fdm3t_core. cbv zeta. cbn [o_Q].
  match goal with
  | |- nth k (map ?f (run ?sp ?a ?b ?c ?M ?u ?v ?w ?cs ?fq ?ib ?e ?old ?dts)) ?d i = _ =>
      apply (nth_run_prop sp a b c M u v w cs fq ib e (fun q => q i = Fin 0) f d dts old k);
      [reflexivity|intros dt o _; cbn [s_Q step]]
  end.
  rewrite (fsum_to_fin _ _ (fun _ => 0)).
  - rewrite sum_to_zero. reflexivity.
  - intros j _. rewrite A_of_inact by (exact Hi || tauto).
    rewrite is_zero_true by reflexivity. reflexivity.
Qed.

(** The storage flow [Qs] of line 178 at an inactive cell is
    [Cs * HI / dt] at the first time step, where the previous head is
    [HI] (when [epsilon] and that step are not 0), and NaN at every later
    step, where the previous head is NaN. *)
Theorem fdm3t_Qs_inactive spsolve gr t kx ky kz Ss FQ HI IB epsilon i
  (Hin : inact IB i = true) (Ht : (2 <= List.length t)%nat) (He : epsilon <> 0)
  (Hd : nth 0 (diffs t) 0 <> 0) :
  let out := fdm3t_core spsolve gr t kx ky kz Ss FQ HI IB epsilon in
  nth 0 (o_Qs out) (fun _ => NaN) i
  = Fin (Ss i * Volume gr i / epsilon * HI i / nth 0 (diffs t) 0) /\
  forall k, (1 <= k < List.length t - 1)%nat -> nth k (o_Qs out) (fun _ => NaN) i = NaN.
Proof.
  cbv zeta. split.
  - destruct t as [|a [|b t']]; simpl in Ht; try lia. simpl in Hd.
    unfold fdm3t_core. cbv zeta. cbn [o_Qs diffs run map nth s_Qs step].
    rewrite provisional_not_active by (apply not_active_of_inact; exact Hin).
    unfold Cs_of. rewrite fdiv_fin by exact He. cbn [fneg fsub fadd].
    rewrite fdiv_fin by exact Hd. cbn [fmul].
    f_equal. field. split; assumption.
  - intros k Hk. unfold fdm3t_core. cbv zeta. cbn [o_Qs].
    assert (Hk' : (k < List.length (diffs t))%nat) by (rewrite diffs_length; lia).
    rewrite (nth_run _ _ _ _ _ _ _ _ _ _ _ _ s_Qs) by exact Hk'.
    cbn [s_Qs step].
    rewrite (phis_inact _ _ _ _ _ _ _ _ _ _ _ _ (diffs t)) by (exact Hin || lia).
    rewrite provisional_not_active by (apply not_active_of_inact; exact Hin).
    cbn [fsub fneg fadd]. apply fmul_nan_r.
Qed.

(** The storage flow [Qs] of line 178 at a fixed-head cell is computed from
    the provisional head 0 and the previous head, which stays [HI]: it is
    [Cs * HI / dt] at a step [dt <> 0], and an infinity at a step [dt = 0]
    when [Ss * Volume] and [HI] are not 0 there. *)
Theorem fdm3t_Qs_fixed spsolve gr t kx ky kz Ss FQ HI IB epsilon k i
  (Hf : fxhd IB i = true) (Hk : (S k < List.length t)%nat) (He : epsilon <> 0) :
  let dt := nth k (diffs t) 0 in
  let q := nth k (o_Qs (fdm3t_core spsolve gr t kx ky kz Ss FQ HI IB epsilon)) (fun _ => NaN) i in
  (dt <> 0 -> q = Fin (Ss i * Volume gr i / epsilon * HI i / dt)) /\
  (dt = 0 -> Ss i * Volume gr i <> 0 -> HI i <> 0 -> exists s, q = Inf s).
Proof.
  assert (Hk' : (k < List.length (diffs t))%nat) by (rewrite diffs_length; lia).
  cbv zeta. unfold fdm3t_core. cbv zeta. cbn [o_Qs].
  rewrite (nth_run _ _ _ _ _ _ _ _ _ _ _ _ s_Qs) by exact Hk'.
  cbn [s_Qs step].
  match goal with
  | |- context [ nth k (?old :: map s_Phi (run ?sp ?a ?b ?c ?M ?u ?v ?w ?cs ?fq ?ib ?e ?old ?dts)) ?d i ] =>
      destruct (phis_fixed sp a b c M u v w cs fq ib e dts old k i Hf) as [E|E]; [|lia];
      rewrite E
  end.
  rewrite provisional_not_active by (apply not_active_of_fxhd; exact Hf).
  unfold Cs_of. rewrite fdiv_fin by exact He. cbn [fneg fsub fadd]. split.
  - intros Hd. rewrite fdiv_fin by exact Hd. cbn [fmul]. f_equal. field. split; assumption.
  - intros Hd Hs Hh. rewrite Hd.
    rewrite fdiv_nonzero_by_zero.
    + cbn [fmul]. rewrite is_zero_false by lra. eexists. reflexivity.
    + intros Ez. apply Hs. assert (E' : Ss i * Volume gr i = - (- (Ss i * Volume gr i / epsilon)) * epsilon)
        by (field; exact He). rewrite E', Ez. ring.
Qed.


(** With an exact solver, the net flows [Q] of every time step are numbers
    at the cells of the grid, and they sum to 0: [A] is symmetric with
    zero row sums. *)
Theorem fdm3t_Q_total_zero spsolve gr t kx ky kz Ss FQ HI IB epsilon k
  (Hex : exact_for spsolve gr t kx ky kz Ss IB epsilon) :
  exists q : nat -> R,
    (forall i, (i < nod gr)%nat ->
       nth k (o_Q (fdm3t_core spsolve gr t kx ky kz Ss FQ HI IB epsilon)) (fun _ => Fin 0) i
       = Fin (q i)) /\
    sum_to (nod gr) q = 0.
Proof.
  destruct (Nat.lt_ge_cases k (List.length (diffs t))) as [Hk|Hk].
  2: { exists (fun _ => 0). split; [|apply sum_to_zero].
       intros i _. rewrite nth_overflow; [reflexivity|].
       unfold fdm3t_core. cbv zeta. cbn [o_Q]. rewrite length_map, run_length. exact Hk. }
  assert (Hk' : (k < List.length t)%nat) by (rewrite diffs_length in Hk; lia).
  pose proof (core_heads_finite spsolve gr t kx ky kz Ss FQ HI IB epsilon Hex k Hk') as Hf.
  destruct (exact_step spsolve gr t kx ky kz Ss IB epsilon (nth k (diffs t) 0) Hex
              (nth_In _ 0 Hk)) as (Hc & He & Hs).
  unfold fdm3t_core in *. cbv zeta in *. cbn [o_Q o_Phi] in *.
  rewrite (nth_run _ _ _ _ _ _ _ _ _ _ _ _ s_Q) by exact Hk.
  match goal with
  | H : forall j, _ -> _ -> exists v, ?o j = Fin v |- _ => set (old := o) in *
  end.
  destruct (step_finite spsolve (nz gr) (ny gr) (nx gr) (A_of gr kx ky kz IB (x_guarded gr))
              (Cx_of gr kx IB (x_guarded gr)) (Cy_of gr ky IB) (Cz_of gr kz IB)
              (Cs_of gr Ss epsilon) FQ IB epsilon (nth k (diffs t) 0) old Hc Hs)
    as [Hp _]; [intros i Hi Ha; exact (proj1 (He i Hi Ha))|exact Hf|].
  unfold A_of in Hp.
  set (A := assemble (nz gr) (ny gr) (nx gr) (Cx_of gr kx IB (x_guarded gr)) (Cy_of gr ky IB)
              (Cz_of gr kz IB)) in *.
  exists (fun i => sum_to (nod gr) (fun j => A i j
            * fval (provisional spsolve (nz gr) (ny gr) (nx gr) A
                      (Cs_of gr Ss epsilon) FQ IB (nth k (diffs t) 0) old j))).
  split.
  - intros i Hi. cbn [s_Q step]. apply fsum_to_fin. intros j Hj.
    destruct (Hp j Hj) as [v Ev]. rewrite Ev. apply dense_term.
  - unfold nod, A. apply assemble_dot_total.
Qed.
(** In a non-axial grid with positive cell sizes, the conductances
    [Cx], [Cy], [Cz] computed from the clamped conductivities of lines
    83-85 are positive across every face between two cells that are not
    inactive. *)
Theorem conductances_positive gr kx ky kz IB xl z y x
  (Hax : axial gr = false) (Hdx : forall i, 0 < dx gr i) (Hdy : forall i, 0 < dy gr i)
  (HDZ : forall i, 0 < DZ gr i) :
  let kx' := fun i => clamp_val (kx i) in
  let ky' := fun i => clamp_val (ky i) in
  let kz' := fun i => clamp_val (kz i) in
  (inact IB (NOD gr z y x) = false -> inact IB (NOD gr z y (S x)) = false ->
     0 < Cx_of gr kx' IB xl z y x) /\
  (inact IB (NOD gr z y x) = false -> inact IB (NOD gr z (S y) x) = false ->
     0 < Cy_of gr ky' IB z y x) /\
  (inact IB (NOD gr z y x) = false -> inact IB (NOD gr (S z) y x) = false ->
     0 < Cz_of gr kz' IB z y x).
Proof.
  cbv zeta. split; [|split]; intros H1 H2;
    unfold Cx_of, Cy_of, Cz_of, Rx2, Rx1, Ry1, Rz1, mask_inact; rewrite Hax, H1, H2;
    cbv beta iota delta [inv_sum];
    apply Rinv_0_lt_compat; apply Rplus_lt_0_compat; unfold Rdiv;
    repeat (apply Rmult_lt_0_compat || apply Rinv_0_lt_compat);
    auto using clamp_val_pos; cbn [QArith_base.Qnum QArith_base.Qden]; lra.
Qed.

(** In axial mode the result does not depend on [ky] nor on the row
    widths [dy]: two axial grids equal except for [dy] give the same
    output for any two [ky]. *)
Theorem fdm3t_axial_ignores_y spsolve gr1 gr2 t kx ky1 ky2 kz Ss FQ HI IB epsilon
  (Ha1 : axial gr1 = true) (Ha2 : axial gr2 = true)
  (Hz : nz gr1 = nz gr2) (Hy : ny gr1 = ny gr2) (Hx : nx gr1 = nx gr2)
  (Hdx : dx gr1 = dx gr2) (HDZ : DZ gr1 = DZ gr2) (HV : Volume gr1 = Volume gr2)
  (Hgx : gx gr1 = gx gr2) (Hxm : xm gr1 = xm gr2) :
  fdm3t_core spsolve gr1 t kx ky1 kz Ss FQ HI IB epsilon
  = fdm3t_core spsolve gr2 t kx ky2 kz Ss FQ HI IB epsilon.
Proof.
  destruct gr1, gr2; simpl in *; subst. reflexivity.
Qed.

(** The initial heads of inactive cells do not influence the heads
    returned at any time index [k >= 1]. *)
Theorem fdm3t_inactive_HI_unused spsolve gr t kx ky kz Ss FQ HI1 HI2 IB epsilon k i
  (H : forall j, inact IB j = false -> HI1 j = HI2 j) (Hk : (1 <= k)%nat) :
  nth k (o_Phi (fdm3t_core spsolve gr t kx ky kz Ss FQ HI1 IB epsilon)) (fun _ => NaN) i
  = nth k (o_Phi (fdm3t_core spsolve gr t kx ky kz Ss FQ HI2 IB epsilon)) (fun _ => NaN) i.
Proof.
  destruct k as [|k]; [lia|].
  unfold fdm3t_core. cbv zeta. cbn [o_Phi nth].
  apply run_congr. intros j Hj. rewrite (H j Hj). reflexivity.
Qed.

(** The prescribed flows [FQ] at fixed-head and inactive cells are never
    read: changing them leaves the whole output unchanged. *)
Theorem fdm3t_FQ_nonactive_unused spsolve gr t kx ky kz Ss FQ1 FQ2 HI IB epsilon
  (H : forall i, active IB i = true -> FQ1 i = FQ2 i) :
  fdm3t_core spsolve gr t kx ky kz Ss FQ1 HI IB epsilon
  = fdm3t_core spsolve gr t kx ky kz Ss FQ2 HI IB epsilon.
Proof.
  unfold fdm3t_core. cbv zeta. rewrite (run_FQ_congr _ _ _ _ _ _ _ _ _ FQ1 FQ2 _ _ _ _ H).
  reflexivity.
Qed.

(** If the solver is exact, the reduced systems have unique solutions, no
    flow is prescribed at active cells and the initial head is the same
    value [c] at every cell that is not inactive, then the head stays [c]
    at every such cell and every time index. *)
Theorem fdm3t_uniform_steady spsolve gr t kx ky kz Ss FQ HI IB epsilon c
  (Hex : exact_for spsolve gr t kx ky kz Ss IB epsilon)
  (Hun : unique_for gr t kx ky kz Ss IB epsilon)
  (HFQ : forall i, active IB i = true -> FQ i = 0)
  (HHI : forall i, inact IB i = false -> HI i = c) :
  forall k i, (k < List.length t)%nat -> (i < nod gr)%nat -> inact IB i = false ->
    nth k (o_Phi (fdm3t_core spsolve gr t kx ky kz Ss FQ HI IB epsilon)) (fun _ => NaN) i = Fin c.
Proof.
  intros k i Hk Hi Hn.
  unfold fdm3t_core. cbv zeta. cbn [o_Phi].
  set (A := A_of gr kx ky kz IB (x_guarded gr)).
  set (Cs := Cs_of gr Ss epsilon).
  set (P := fun o : nat -> fl => forall j, (j < nod gr)%nat -> inact IB j = false -> o j = Fin c).
  enough (HP : P (nth k ((fun j => Fin (HI j)) :: map s_Phi
            (run spsolve (nz gr) (ny gr) (nx gr) A
               (Cx_of gr kx IB (x_guarded gr)) (Cy_of gr ky IB) (Cz_of gr kz IB)
               Cs FQ IB epsilon (fun j => Fin (HI j)) (diffs t)))
            (fun _ => NaN))) by exact (HP i Hi Hn).
  apply run_invariant.
  - intros j _ Hj. rewrite (HHI j Hj). reflexivity.
  - intros dt o Hin Ho j Hj Hjn.
    destruct (exact_step spsolve gr t kx ky kz Ss IB epsilon dt Hex Hin) as (Hc & He & _).
    destruct (cell_class IB j) as [(H1 & H2 & H3)|[(H1 & H2 & H3)|(H1 & H2 & H3)]];
      [congruence| |].
    + rewrite step_fixed by exact H2. exact (Ho j Hj Hjn).
    + rewrite step_active by exact H3. rewrite (Ho j Hj Hjn).
      unfold provisional. rewrite H3.
      assert (Hoo : forall l, (l < nz gr * ny gr * nx gr)%nat -> inact IB l = false ->
                      exists v, o l = Fin v)
        by (intros l Hl Hl'; exists c; exact (Ho l Hl Hl')).
      rewrite (baa_eta (nz gr) (ny gr) (nx gr) A Cs FQ IB dt o Hc Hoo).
      destruct (Hex dt Hin) as [_ Hs].
      destruct (Hs (fun l => fval (baa (nz gr) (ny gr) (nx gr) A Cs FQ IB dt o l)))
        as [x [Hx Hsol]].
      unfold nod in Hx.
      change (A_of gr kx ky kz IB (x_guarded gr)) with A in Hx, Hsol.
      change (Cs_of gr Ss epsilon) with Cs in Hx, Hsol.
      rewrite (Hx j Hj H3).
      assert (Ex : x j = c).
      { refine (Hun dt Hin _ x (fun _ => c) Hsol _ j Hj H3).
        apply (uniform_solves gr kx ky kz Ss FQ IB epsilon dt o c
                 (fun l => fval (fdiv (Cs l) (Fin dt))) HFQ Ho).
        intros l Hl Ha. destruct (Hc l Hl Ha) as [cc Ecc]. unfold Cs. rewrite Ecc. reflexivity. }
      rewrite Ex. destruct (He j Hj H3) as [Heps _].
      cbn [fsub fneg fadd]. rewrite fdiv_fin by exact Heps. cbn [fadd].
      f_equal. field. exact Heps.
  - rewrite diffs_length. lia.
Qed.

(** [fdm3t] checks the shapes of [kx], [ky], [kz] and [Ss]
    only.  It raises [AssertionError] exactly when one of these four
    differs from [gr.shape]; the message, ["shape of <name> <shape>
    differs from that of model <gr.shape>"], names a mismatching field
    and gives both shapes, and the caller's arrays are left untouched. *)
Theorem fdm3t_shape_assertions spsolve h gr t kxyz Ss FQ HI IBOUND epsilon lkx lky lkz
  (Hu : unpack_kxyz kxyz = inr (lkx, lky, lkz)) :
  let fields := [("kx", shape (h lkx)); ("ky", shape (h lky)); ("kz", shape (h lkz));
                 ("Ss", shape (h Ss))]%string in
  let res := fdm3t spsolve h gr t kxyz Ss FQ HI IBOUND epsilon in
  (forall msg, fst res = inl (AssertionError msg) ->
     snd res = h /\
     exists name s, In (name, s) fields /\ s <> gshape gr /\ msg = shape_msg name s (gshape gr)) /\
  ((exists name s, In (name, s) fields /\ s <> gshape gr) ->
     exists msg, fst res = inl (AssertionError msg)).
Proof.
  cbv zeta.
  destruct (check_shapes (gshape gr)
              [("kx", shape (h lkx)); ("ky", shape (h lky)); ("kz", shape (h lkz));
               ("Ss", shape (h Ss))]%string) as [e|] eqn:Hc.
  - assert (Hres : fdm3t spsolve h gr t kxyz Ss FQ HI IBOUND epsilon = (inl e, h))
      by (unfold fdm3t; rewrite Hu, Hc; reflexivity).
    rewrite Hres. simpl.
    destruct (check_shapes_some _ _ _ Hc) as (n & s & Hin & Hne & ->).
    split.
    + intros msg H. injection H as <-. split; [reflexivity|]. exists n, s. tauto.
    + intros _. eexists. reflexivity.
  - destruct (fdm3t_after_checks spsolve h gr t kxyz Ss FQ HI IBOUND epsilon lkx lky lkz Hu Hc)
      as [_ Hno].
    split.
    + intros msg H. exfalso. exact (Hno msg H).
    + intros (n & s & Hin & Hne). exfalso. apply Hne. exact (check_shapes_none _ _ Hc n s Hin).
Qed.

(** A grid with no layer, row or column: with the arrays of the grid's
    shape, [fdm3t] raises ["negative dimensions are not allowed"] (from
    [np.zeros] at line 148 for an empty [t], at lines 150-152 otherwise),
    except on an axial grid with no column whose [x[0]] is not positive,
    where line 103 reads [x[1]] out of bounds first. *)
Theorem fdm3t_zero_dimension spsolve h gr t kxyz Ss FQ HI IBOUND epsilon lkx lky lkz
  (Hu : unpack_kxyz kxyz = inr (lkx, lky, lkz))
  (Hk : shape (h lkx) = gshape gr /\ shape (h lky) = gshape gr /\ shape (h lkz) = gshape gr)
  (Hs : shape (h Ss) = gshape gr) (Hib : ishape IBOUND = gshape gr)
  (H0 : nz gr = 0%nat \/ ny gr = 0%nat \/ nx gr = 0%nat) :
  let res := fst (fdm3t spsolve h gr t kxyz Ss FQ HI IBOUND epsilon) in
  (axial gr = false \/ (0 < nx gr)%nat \/ 0 < gx gr 0 ->
     res = inl (ValueError "negative dimensions are not allowed")) /\
  (axial gr = true -> nx gr = 0%nat -> gx gr 0 <= 0 ->
     res = inl (IndexError "index 1 is out of bounds for axis 0 with size 1")).
Proof.
  destruct Hk as (H1 & H2 & H3).
  assert (Hdim : ((nz gr =? 0) || (ny gr =? 0) || (nx gr =? 0))%nat = true)
    by (destruct H0 as [E|[E|E]]; rewrite E; simpl; rewrite ?orb_true_r; reflexivity).
  cbv zeta. unfold fdm3t. rewrite Hu.
  rewrite check_shapes_ok
    by (intros n s Hin; simpl in Hin;
        destruct Hin as [E|[E|[E|[E|[]]]]]; injection E as <- <-; assumption).
  cbv zeta. rewrite Hib, size_gshape, Nat.eqb_refl. cbn [negb]. split.
  - intros Hc.
    assert (Hax : (axial gr && (nx gr =? 0)%nat
                   && negb (if Rlt_dec 0 (gx gr 0) then true else false)) = false).
    { destruct Hc as [Ha|[Hx|Hg]].
      - rewrite Ha. reflexivity.
      - rewrite (proj2 (Nat.eqb_neq (nx gr) 0) ltac:(lia)), andb_false_r. reflexivity.
      - destruct (Rlt_dec 0 (gx gr 0)); [|lra]. apply andb_false_r. }
    rewrite Hax. destruct t; [reflexivity|]. rewrite Hdim. reflexivity.
  - intros Ha Hx Hg. rewrite Ha, Hx. destruct (Rlt_dec 0 (gx gr 0)); [lra|]. reflexivity.
Qed.

(** On a grid of one cell, with at least one time step, a well-shaped [HI]
    and an [FQ] that does not have one element, line 172 fails: [RHS] has
    the size of [FQ] and the boolean index [active] has one entry. *)
Theorem fdm3t_one_cell_FQ spsolve h gr t kxyz Ss FQ HI IBOUND epsilon lkx lky lkz
  (Hu : unpack_kxyz kxyz = inr (lkx, lky, lkz))
  (Hk : shape (h lkx) = gshape gr /\ shape (h lky) = gshape gr /\ shape (h lkz) = gshape gr)
  (Hs : shape (h Ss) = gshape gr) (HH : shape (h HI) = gshape gr)
  (Hib : ishape IBOUND = gshape gr) (H1 : nod gr = 1%nat) (Ht : (2 <= List.length t)%nat)
  (HF : size (shape (h FQ)) <> 1%nat) :
  fst (fdm3t spsolve h gr t kxyz Ss FQ HI IBOUND epsilon)
  = inl (IndexError "boolean index did not match indexed array").
Proof.
  destruct Hk as (K1 & K2 & K3).
  assert (Hd : (nz gr = 1 /\ ny gr = 1 /\ nx gr = 1)%nat).
  { pose proof H1 as E. unfold nod in E. apply Nat.eq_mul_1 in E as [E Ex].
    apply Nat.eq_mul_1 in E as [Ez Ey]. auto. }
  destruct Hd as (Dz & Dy & Dx).
  unfold fdm3t. rewrite Hu.
  rewrite check_shapes_ok
    by (intros n s Hin; simpl in Hin;
        destruct Hin as [E|[E|[E|[E|[]]]]]; injection E as <- <-; assumption).
  cbv zeta. rewrite Hib, size_gshape, Nat.eqb_refl. cbn [negb].
  rewrite Dz, Dy, Dx. cbn [Nat.eqb orb]. rewrite andb_false_r. cbn [andb].
  destruct t as [|a [|b t']]; simpl in Ht; try lia.
  destruct (clamp3_spec h lkx lky lkz HI) as [EH _].
  destruct (clamp3_spec h lkx lky lkz FQ) as [EF _].
  cbv zeta in EH, EF.
  unfold broadcastable at 1. rewrite EH, HH, size_gshape, Nat.eqb_refl. cbn [orb negb].
  cbn [diffs]. rewrite EF, H1, Nat.eqb_refl, (proj2 (Nat.eqb_neq _ _) HF). reflexivity.
Qed.

(** ** Rows and running sums *)

Lemma vadd_nil_r a : vadd a [] = [].
Proof. destruct a; reflexivity. Qed.

Lemma vadd_length a b : List.length (vadd a b) = Nat.min (List.length a) (List.length b).
Proof.
  revert b. induction a as [|u a IH]; intros [|v b]; simpl; try reflexivity.
  rewrite IH. reflexivity.
Qed.

Lemma vadd_nth a b x :
  (x < List.length a)%nat -> (x < List.length b)%nat ->
  nth x (vadd a b) (Fin 0) = fadd (nth x a (Fin 0)) (nth x b (Fin 0)).
Proof.
  revert b x. induction a as [|u a IH]; intros [|v b] x Ha Hb; simpl in *; try lia.
  destruct x as [|x]; [reflexivity|]. apply IH; lia.
Qed.

Lemma cumsum_from_length acc rows : List.length (cumsum_from acc rows) = List.length rows.
Proof.
  revert acc. induction rows as [|r rows IH]; intros acc; simpl; [reflexivity|]. rewrite IH. reflexivity.
Qed.

Lemma cumsum0_length rows : List.length (cumsum0 rows) = List.length rows.
Proof. destruct rows as [|r rows]; simpl; [reflexivity|]. rewrite cumsum_from_length. reflexivity. Qed.

Lemma cumsum_from_rows m acc rows :
  List.length acc = m -> (forall r, In r rows -> List.length r = m) ->
  forall r, In r (cumsum_from acc rows) -> List.length r = m.
Proof.
  revert acc. induction rows as [|r0 rows IH]; intros acc Ha Hr r Hin; simpl in Hin; [contradiction|].
  assert (Hv : List.length (vadd acc r0) = m).
  { rewrite vadd_length, Ha, (Hr r0 (or_introl eq_refl)). apply Nat.min_id. }
  destruct Hin as [<-|Hin]; [exact Hv|].
  apply (IH (vadd acc r0)); [exact Hv| |exact Hin].
  intros r' Hr'. apply Hr. right. exact Hr'.
Qed.

Lemma cumsum0_rows m rows :
  (forall r, In r rows -> List.length r = m) -> forall r, In r (cumsum0 rows) -> List.length r = m.
Proof.
  destruct rows as [|r0 rows]; intros Hr r Hin; simpl in Hin; [contradiction|].
  destruct Hin as [<-|Hin]; [apply Hr; left; reflexivity|].
  apply (cumsum_from_rows m r0 rows); [apply Hr; left; reflexivity| |exact Hin].
  intros r' Hr'. apply Hr. right. exact Hr'.
Qed.

Lemma cumsum_from_succ acc rows j :
  nth (S j) (cumsum_from acc rows) [] = vadd (nth j (cumsum_from acc rows) []) (nth (S j) rows []).
Proof.
  revert acc j. induction rows as [|r rows IH]; intros acc j; simpl.
  - destruct j; reflexivity.
  - destruct j as [|j].
    + destruct rows as [|r' rows]; simpl; [rewrite vadd_nil_r; reflexivity|reflexivity].
    + apply IH.
Qed.

Lemma cumsum0_first rows : nth 0 (cumsum0 rows) [] = nth 0 rows [].
Proof. destruct rows; reflexivity. Qed.

Lemma cumsum0_succ rows j :
  nth (S j) (cumsum0 rows) [] = vadd (nth j (cumsum0 rows) []) (nth (S j) rows []).
Proof.
  destruct rows as [|r rows]; simpl; [destruct j; reflexivity|].
  destruct j as [|j].
  - destruct rows as [|r' rows]; simpl; [rewrite vadd_nil_r; reflexivity|reflexivity].
  - apply cumsum_from_succ.
Qed.

Lemma nth_map_zero (l : list fl) x : nth x (map (fun _ => Fin 0) l) (Fin 0) = Fin 0.
Proof. revert x. induction l as [|a l IH]; intros [|x]; simpl; auto. Qed.

Lemma rev_last {X} (l : list X) d : l <> [] -> exists rest, rev l = last l d :: rest.
Proof.
  intros H. exists (rev (removelast l)).
  transitivity (rev (removelast l ++ [last l d])).
  - f_equal. exact (app_removelast_last d H).
  - rewrite rev_app_distr. reflexivity.
Qed.

Lemma o_Qx_length spsolve gr t kx ky kz Ss FQ HI IB epsilon :
  List.length (o_Qx (fdm3t_core spsolve gr t kx ky kz Ss FQ HI IB epsilon)) = (List.length t - 1)%nat.
Proof.
  unfold fdm3t_core. cbv zeta. cbn [o_Qx]. rewrite length_map, run_length, diffs_length. reflexivity.
Qed.

(** [get_psi] fails ([IndexError]) exactly when the output has no time
    step ([len(t) <= 1]) or the grid has no row ([ny = 0]). *)
Theorem get_psi_index_error spsolve gr t kx ky kz Ss FQ HI IB epsilon :
  get_psi gr (fdm3t_core spsolve gr t kx ky kz Ss FQ HI IB epsilon) = None
  <-> (List.length t <= 1)%nat \/ ny gr = 0%nat.
Proof.
  pose proof (o_Qx_length spsolve gr t kx ky kz Ss FQ HI IB epsilon) as HL.
  unfold get_psi.
  destruct (rev (o_Qx (fdm3t_core spsolve gr t kx ky kz Ss FQ HI IB epsilon))) as [|q rest] eqn:E.
  - apply (f_equal (@List.length _)) in E. rewrite length_rev in E. cbn [List.length] in E.
    split; [intros _; left; lia|reflexivity].
  - apply (f_equal (@List.length _)) in E. rewrite length_rev in E. cbn [List.length] in E.
    destruct (Nat.eqb_spec (ny gr) 0) as [H0|H0].
    + split; [intros _; right; exact H0|reflexivity].
    + split; [discriminate|]. intros [H|H]; lia.
Qed.

(** With a time step, a row and a layer, [get_psi] returns [nz + 1] rows of
    [nx - 1] values each; the bottom row is 0, and each row [z] is the
    flow [Qx] of layer [z], row 0, at the last time step, plus row [z + 1]. *)
Theorem get_psi_stream spsolve gr t kx ky kz Ss FQ HI IB epsilon
  (Ht : (2 <= List.length t)%nat) (Hny : (0 < ny gr)%nat) (Hnz : (0 < nz gr)%nat) :
  let out := fdm3t_core spsolve gr t kx ky kz Ss FQ HI IB epsilon in
  let q := last (o_Qx out) (fun _ _ _ => Fin 0) in
  exists psi, get_psi gr out = Some psi /\
    List.length psi = S (nz gr) /\
    (forall r, In r psi -> List.length r = (nx gr - 1)%nat) /\
    (forall x, (x < nx gr - 1)%nat -> nth x (nth (nz gr) psi []) (Fin 0) = Fin 0) /\
    (forall z x, (z < nz gr)%nat -> (x < nx gr - 1)%nat ->
       nth x (nth z psi []) (Fin 0) = fadd (q z 0%nat x) (nth x (nth (S z) psi []) (Fin 0))).
Proof.
  cbv zeta.
  set (out := fdm3t_core spsolve gr t kx ky kz Ss FQ HI IB epsilon).
  assert (Hne : o_Qx out <> []).
  { intros E. pose proof (o_Qx_length spsolve gr t kx ky kz Ss FQ HI IB epsilon) as HL.
    fold out in HL. rewrite E in HL. simpl in HL. lia. }
  destruct (rev_last (o_Qx out) (fun _ _ _ => Fin 0) Hne) as [rest Er].
  set (q := last (o_Qx out) (fun _ _ _ => Fin 0)) in *.
  set (m := (nx gr - 1)%nat).
  set (Qx := map (fun z => map (fun x => q z 0%nat x) (seq 0 m)) (seq 0 (nz gr))).
  set (Zr := map (map (fun _ => Fin 0)) (skipn (List.length Qx - 1) Qx)).
  set (L := Qx ++ Zr).
  assert (HQl : List.length Qx = nz gr) by (unfold Qx; rewrite length_map, length_seq; reflexivity).
  assert (HZl : List.length Zr = 1%nat)
    by (unfold Zr; rewrite length_map, length_skipn, HQl; lia).
  assert (HLl : List.length L = S (nz gr)) by (unfold L; rewrite length_app, HQl, HZl; lia).
  assert (HQrow : forall z, (z < nz gr)%nat -> nth z L [] = map (fun x => q z 0%nat x) (seq 0 m)).
  { intros z Hz. unfold L. rewrite app_nth1 by lia. unfold Qx.
    rewrite (nth_indep _ [] (map (fun x => q 0%nat 0%nat x) (seq 0 m))) by (rewrite length_map, length_seq; exact Hz).
    rewrite (map_nth (fun z => map (fun x => q z 0%nat x) (seq 0 m))).
    rewrite seq_nth by exact Hz. reflexivity. }
  assert (HZrow : forall x, nth x (nth (nz gr) L []) (Fin 0) = Fin 0).
  { intros x. unfold L. rewrite app_nth2 by lia. rewrite HQl, Nat.sub_diag.
    unfold Zr. destruct (skipn (List.length Qx - 1) Qx) as [|r0 rs]; simpl;
      [destruct x; reflexivity|apply nth_map_zero]. }
  assert (Hrows : forall r, In r L -> List.length r = m).
  { intros r Hr. unfold L in Hr. apply in_app_or in Hr as [Hr|Hr].
    - unfold Qx in Hr. apply in_map_iff in Hr as [z [<- _]]. rewrite length_map, length_seq. reflexivity.
    - unfold Zr in Hr. apply in_map_iff in Hr as [r0 [<- Hr0]]. rewrite length_map.
      assert (Hr1 : In r0 Qx) by (rewrite <- (firstn_skipn (List.length Qx - 1) Qx); apply in_or_app; right; exact Hr0).
      clear Hr0. rename Hr1 into Hr0. unfold Qx in Hr0. apply in_map_iff in Hr0 as [z [<- _]].
      rewrite length_map, length_seq. reflexivity. }
  set (C := cumsum0 (rev L)).
  assert (HCl : List.length C = S (nz gr)) by (unfold C; rewrite cumsum0_length, length_rev; exact HLl).
  assert (HCrows : forall r, In r C -> List.length r = m).
  { apply cumsum0_rows. intros r Hr. apply Hrows. apply in_rev. exact Hr. }
  assert (Hpsi : forall z, (z <= nz gr)%nat -> nth z (rev C) [] = nth (nz gr - z) C []).
  { intros z Hz. rewrite rev_nth by lia. rewrite HCl. try (f_equal; lia). }
  assert (HrevL : forall k, (k <= nz gr)%nat -> nth k (rev L) [] = nth (nz gr - k) L []).
  { intros k Hk. rewrite rev_nth by lia. rewrite HLl. try (f_equal; lia). }
  exists (rev C). split; [|split; [|split; [|split]]].
  - unfold get_psi. rewrite Er. rewrite (proj2 (Nat.eqb_neq (ny gr) 0)) by lia. reflexivity.
  - rewrite length_rev. exact HCl.
  - intros r Hr. apply HCrows. apply in_rev. exact Hr.
  - intros x Hx. rewrite Hpsi by lia. rewrite Nat.sub_diag. unfold C. rewrite cumsum0_first.
    rewrite HrevL by lia. rewrite Nat.sub_0_r. apply HZrow.
  - intros z x Hz Hx. rewrite !Hpsi by lia.
    replace (nz gr - z)%nat with (S (nz gr - S z)) by lia.
    unfold C at 1. rewrite cumsum0_succ. fold C.
    rewrite HrevL by lia. replace (nz gr - S (nz gr - S z))%nat with z by lia.
    rewrite HQrow by exact Hz.
    assert (Hin : In (nth (nz gr - S z) C []) C) by (apply nth_In; lia).
    rewrite vadd_nth.
    + rewrite (nth_indep (map (fun x0 => q z 0%nat x0) (seq 0 m)) (Fin 0) (q z 0%nat 0%nat)) by (rewrite length_map, length_seq; exact Hx).
      rewrite (map_nth (fun x => q z 0%nat x)), seq_nth by exact Hx. simpl. apply fadd_comm.
    + rewrite (HCrows _ Hin). exact Hx.
    + rewrite length_map, length_seq. exact Hx.
Qed.

Lemma broadcastable_shape a b n : shape a = shape b -> broadcastable a n = broadcastable b n.
Proof. unfold broadcastable. intros ->. reflexivity. Qed.

Lemma shape_eqb_refl s : shape_eqb s s = true.
Proof. apply shape_eqb_spec. reflexivity. Qed.

(** Once the shape assertions of lines 264-268 pass, [Fdm3t.__init__]
    runs [fdm3t] with [kx = ky = Kh], [kz = Kv] and [epsilon = 1]
    whatever [epsilon] it was given; it clamps [Kh] and [Kv] in the
    caller's arrays and changes nothing else there.  On a grid with at
    least one layer, row and column, it fails only for an empty [t] or an
    [HI] that does not broadcast to the grid. *)
Theorem Fdm3t_init_runs spsolve h gr t kxyz Ss FQ HI IBOUND epsilon Kh Kv
  (Hu : unpack_KhKv kxyz = inr (Kh, Kv))
  (HKh : shape (h Kh) = gshape gr) (HKv : shape (h Kv) = gshape gr)
  (HFQ : shape (h FQ) = gshape gr) (HSs : shape (h Ss) = gshape gr)
  (HIB : ishape IBOUND = gshape gr)
  (Hdim : (0 < nz gr)%nat /\ (0 < ny gr)%nat /\ (0 < nx gr)%nat) :
  let h' := snd (Fdm3t_init spsolve h gr t kxyz Ss FQ HI IBOUND epsilon) in
  (forall l, shape (h' l) = shape (h l) /\
     forall i, data (h' l) i = if (l =? Kh)%nat || (l =? Kv)%nat
                               then clamp_val (data (h l) i) else data (h l) i) /\
  fst (Fdm3t_init spsolve h gr t kxyz Ss FQ HI IBOUND epsilon)
  = match t with
    | [] => inl (ValueError "negative dimensions are not allowed")
    | _ => if broadcastable (h HI) (nod gr)
           then inr (fdm3t_core spsolve gr t (data (h' Kh)) (data (h' Kh)) (data (h' Kv))
                       (data (h' Ss)) (bcast (h' FQ)) (bcast (h' HI)) (idata IBOUND) 1)
           else inl (ValueError "could not broadcast input array")
    end.
Proof.
  assert (Hinit : Fdm3t_init spsolve h gr t kxyz Ss FQ HI IBOUND epsilon
                  = fdm3t spsolve h gr t (KTuple [Kh; Kh; Kv]) Ss FQ HI IBOUND 1).
  { unfold Fdm3t_init. rewrite Hu, HKh, HKv, HFQ, HSs, HIB, !shape_eqb_refl. reflexivity. }
  assert (Hc : check_shapes (gshape gr)
    [("kx", shape (h Kh)); ("ky", shape (h Kh)); ("kz", shape (h Kv)); ("Ss", shape (h Ss))]%string
    = None).
  { apply check_shapes_ok. intros name s Hin. simpl in Hin.
    destruct Hin as [E|[E|[E|[E|[]]]]]; injection E as _ <-; assumption. }
  destruct (fdm3t_after_checks spsolve h gr t (KTuple [Kh; Kh; Kv]) Ss FQ HI IBOUND 1 Kh Kh Kv
              eq_refl Hc) as [Hh _].
  cbv zeta in Hh |- *. rewrite Hinit, Hh.
  set (h3 := upd (upd (upd h Kh (clamp (h Kh))) Kh (clamp (upd h Kh (clamp (h Kh)) Kh))) Kv
               (clamp (upd (upd h Kh (clamp (h Kh))) Kh (clamp (upd h Kh (clamp (h Kh)) Kh)) Kv))).
  assert (H3 : forall l, shape (h3 l) = shape (h l) /\
     forall i, data (h3 l) i = if (l =? Kh)%nat || (l =? Kv)%nat
                               then clamp_val (data (h l) i) else data (h l) i).
  { intros l. destruct (clamp3_spec h Kh Kh Kv l) as [Hs Hd]. split; [exact Hs|].
    intros i. rewrite Hd. destruct (l =? Kh)%nat; reflexivity. }
  split; [exact H3|].
  destruct Hdim as (Dz & Dy & Dx).
  unfold fdm3t. cbn [unpack_kxyz]. rewrite Hc. fold h3.
  rewrite HIB, size_gshape, Nat.eqb_refl. cbn [negb].
  rewrite (proj2 (Nat.eqb_neq (nz gr) 0) ltac:(lia)), (proj2 (Nat.eqb_neq (ny gr) 0) ltac:(lia)),
    (proj2 (Nat.eqb_neq (nx gr) 0) ltac:(lia)), andb_false_r. cbn [andb orb].
  destruct t as [|a t']; [reflexivity|].
  rewrite (broadcastable_shape (h3 HI) (h HI)) by apply H3.
  assert (EF : shape (h3 FQ) = gshape gr) by (rewrite (proj1 (H3 FQ)); exact HFQ).
  assert (BF : broadcastable (h3 FQ) (nod gr) = true)
    by (unfold broadcastable; rewrite EF, size_gshape, Nat.eqb_refl; reflexivity).
  rewrite BF, EF, size_gshape.
  destruct (broadcastable (h HI) (nod gr)); [|reflexivity].
  destruct (diffs (a :: t')); [reflexivity|].
  destruct (nod gr =? 1)%nat; reflexivity.
Qed.

(** [Fdm3t.__init__] rejects a tuple or list [kxyz] of length 0 or more
    than 3 with [ValueError], before touching the caller's arrays. *)
Theorem Fdm3t_init_bad_kxyz spsolve h gr t ls Ss FQ HI IBOUND epsilon
  (Hl : List.length ls = 0%nat \/ (3 < List.length ls)%nat) :
  Fdm3t_init spsolve h gr t (KTuple ls) Ss FQ HI IBOUND epsilon
  = (inl (ValueError "Can't understand input kxyz, use (Kx, Kz) tuple"), h) /\
  Fdm3t_init spsolve h gr t (KList ls) Ss FQ HI IBOUND epsilon
  = (inl (ValueError "Can't understand input kxyz, use (Kx, Kz) tuple"), h).
Proof.
  destruct ls as [|a [|b [|c [|d ls]]]]; simpl in Hl; try lia; split; reflexivity.
Qed.

(** When [Kh], [Kv] and [FQ] have the grid's shape and [Ss] does not,
    [Fdm3t.__init__] raises the AssertionError of line 267, whose message
    reads ["gr.shape != HI.shape"], and leaves the arrays unchanged. *)
Theorem Fdm3t_init_Ss_message spsolve h gr t kxyz Ss FQ HI IBOUND epsilon Kh Kv
  (Hu : unpack_KhKv kxyz = inr (Kh, Kv))
  (HKh : shape (h Kh) = gshape gr) (HKv : shape (h Kv) = gshape gr)
  (HFQ : shape (h FQ) = gshape gr) (HSs : shape (h Ss) <> gshape gr) :
  Fdm3t_init spsolve h gr t kxyz Ss FQ HI IBOUND epsilon
  = (inl (AssertionError "gr.shape != HI.shape"), h).
Proof.
  unfold Fdm3t_init. rewrite Hu, HKh, HKv, HFQ, !shape_eqb_refl. cbn [negb].
  destruct (shape_eqb (gshape gr) (shape (h Ss))) eqn:E; [|reflexivity].
  apply shape_eqb_spec in E. congruence.
Qed.

(** [fdm3t] given a list [kxyz] fails with [AttributeError] (a list has no
    [shape]), and given a tuple whose length is not 3 fails with
    [ValueError] from the unpacking of line 70; the arrays are unchanged. *)
Theorem fdm3t_bad_kxyz spsolve h gr t ls Ss FQ HI IBOUND epsilon :
  fdm3t spsolve h gr t (KList ls) Ss FQ HI IBOUND epsilon
  = (inl (AttributeError "'list' object has no attribute 'shape'"), h) /\
  (List.length ls <> 3%nat ->
   exists msg, fdm3t spsolve h gr t (KTuple ls) Ss FQ HI IBOUND epsilon = (inl (ValueError msg), h)).
Proof.
  split; [reflexivity|]. intros Hl.
  destruct ls as [|a [|b [|c [|d ls]]]]; simpl in Hl; try lia; eexists; reflexivity.
Qed.

(** ** Instances of the further properties *)


Lemma fdm3t_Q_inactive_zero_witness :
  (1 < nod (unit_grid 1 1 2 false))%nat /\ inact IB_hole 1 = true /\
  nth 0 (o_Q (fdm3t_core spsolve_diag (unit_grid 1 1 2 false) [0; 1] (fun _ => 1) (fun _ => 1)
                (fun _ => 1) (fun _ => 1) (fun _ => 0) (fun _ => 0) IB_hole 1)) (fun _ => Fin 0) 1%nat
  = Fin 0.
Proof.
  split; [vm_compute; lia|split; [reflexivity|]].
  apply (fdm3t_Q_inactive_zero spsolve_diag (unit_grid 1 1 2 false) [0; 1] (fun _ => 1) (fun _ => 1)
           (fun _ => 1) (fun _ => 1) (fun _ => 0) (fun _ => 0) IB_hole 1 0 1); [vm_compute; lia|reflexivity].
Defined.

Lemma fdm3t_Qs_inactive_witness :
  inact IB_hole 1 = true /\ (2 <= List.length [0; 1; 2])%nat /\ (1 : R) <> 0 /\
  nth 0 (diffs [0; 1; 2]) 0 <> 0 /\
  nth 0 (o_Qs (fdm3t_core spsolve_diag (unit_grid 1 1 2 false) [0; 1; 2] (fun _ => 1) (fun _ => 1)
                 (fun _ => 1) (fun _ => 1) (fun _ => 0) (fun _ => 5) IB_hole 1)) (fun _ => NaN) 1%nat
  = Fin (1 * Volume (unit_grid 1 1 2 false) 1 / 1 * 5 / nth 0 (diffs [0; 1; 2]) 0) /\
  nth 1 (o_Qs (fdm3t_core spsolve_diag (unit_grid 1 1 2 false) [0; 1; 2] (fun _ => 1) (fun _ => 1)
                 (fun _ => 1) (fun _ => 1) (fun _ => 0) (fun _ => 5) IB_hole 1)) (fun _ => NaN) 1%nat
  = NaN.
Proof.
  assert (Hd : nth 0 (diffs [0; 1; 2]) 0 <> 0) by (simpl; lra).
  destruct (fdm3t_Qs_inactive spsolve_diag (unit_grid 1 1 2 false) [0; 1; 2] (fun _ => 1) (fun _ => 1)
              (fun _ => 1) (fun _ => 1) (fun _ => 0) (fun _ => 5) IB_hole 1 1 eq_refl
              ltac:(simpl; lia) R1_neq_R0 Hd) as [H0 Hk].
  split; [reflexivity|split; [simpl; lia|split; [exact R1_neq_R0|split; [exact Hd|split; [exact H0|]]]]].
  apply Hk. simpl. lia.
Defined.

Lemma fdm3t_Qs_fixed_witness :
  fxhd IB_fix 1 = true /\ (1 < List.length [0; 1])%nat /\ (1 : R) <> 0 /\
  nth 0 (o_Qs (fdm3t_core spsolve_diag (unit_grid 1 1 2 false) [0; 1] (fun _ => 1) (fun _ => 1)
                 (fun _ => 1) (fun _ => 1) (fun _ => 0) (fun _ => 5) IB_fix 1)) (fun _ => NaN) 1%nat
  = Fin (1 * Volume (unit_grid 1 1 2 false) 1 / 1 * 5 / nth 0 (diffs [0; 1]) 0) /\
  (exists s, nth 0 (o_Qs (fdm3t_core spsolve_diag (unit_grid 1 1 2 false) [0; 0] (fun _ => 1)
                            (fun _ => 1) (fun _ => 1) (fun _ => 1) (fun _ => 0) (fun _ => 5)
                            IB_fix 1)) (fun _ => NaN) 1%nat = Inf s).
Proof.
  split; [reflexivity|split; [simpl; lia|split; [exact R1_neq_R0|split]]].
  - apply (proj1 (fdm3t_Qs_fixed spsolve_diag (unit_grid 1 1 2 false) [0; 1] (fun _ => 1)
                    (fun _ => 1) (fun _ => 1) (fun _ => 1) (fun _ => 0) (fun _ => 5) IB_fix 1 0 1
                    eq_refl ltac:(simpl; lia) R1_neq_R0)).
    simpl. lra.
  - apply (proj2 (fdm3t_Qs_fixed spsolve_diag (unit_grid 1 1 2 false) [0; 0] (fun _ => 1)
                    (fun _ => 1) (fun _ => 1) (fun _ => 1) (fun _ => 0) (fun _ => 5) IB_fix 1 0 1
                    eq_refl ltac:(simpl; lia) R1_neq_R0)); simpl; lra.
Defined.


Lemma fdm3t_Q_total_zero_witness :
  exact_for spsolve_diag (unit_grid 1 1 2 false) [0; 1] (fun _ => 1) (fun _ => 1) (fun _ => 1)
    (fun _ => 1) IB_fix 1 /\
  exists q : nat -> R,
    (forall i, (i < nod (unit_grid 1 1 2 false))%nat ->
       nth 0 (o_Q (fdm3t_core spsolve_diag (unit_grid 1 1 2 false) [0; 1] (fun _ => 1) (fun _ => 1)
                     (fun _ => 1) (fun _ => 1) (fun _ => 0) (fun i => if (i =? 1)%nat then 2 else 0)
                     IB_fix 1)) (fun _ => Fin 0) i = Fin (q i)) /\
    sum_to (nod (unit_grid 1 1 2 false)) q = 0.
Proof.
  assert (Hex : exact_for spsolve_diag (unit_grid 1 1 2 false) [0; 1] (fun _ => 1) (fun _ => 1)
                  (fun _ => 1) (fun _ => 1) IB_fix 1).
  { apply spsolve_diag_exact. intros dt Hdt i j Hi Hj Ha Hb.
    simpl in Hdt. destruct Hdt as [<-|[]].
    destruct i as [|[|i]]; [|discriminate Ha|unfold nod in Hi; simpl in Hi; lia].
    destruct j as [|[|j]]; [|discriminate Hb|unfold nod in Hj; simpl in Hj; lia].
    eexists. split; [eval_model; reflexivity|]. split; [intros _; lra|intros H; congruence]. }
  split; [exact Hex|].
  exact (fdm3t_Q_total_zero spsolve_diag (unit_grid 1 1 2 false) [0; 1] (fun _ => 1) (fun _ => 1)
           (fun _ => 1) (fun _ => 1) (fun _ => 0) (fun i => if (i =? 1)%nat then 2 else 0) IB_fix 1 0
           Hex).
Defined.

Lemma conductances_positive_witness :
  axial (unit_grid 2 2 2 false) = false /\
  inact (fun _ => 1%Z) (NOD (unit_grid 2 2 2 false) 0 0 0) = false /\
  inact (fun _ => 1%Z) (NOD (unit_grid 2 2 2 false) 0 0 1) = false /\
  0 < Cx_of (unit_grid 2 2 2 false) (fun i => clamp_val 0) (fun _ => 1%Z)
        (x_guarded (unit_grid 2 2 2 false)) 0 0 0.
Proof.
  split; [reflexivity|split; [reflexivity|split; [reflexivity|]]].
  apply (proj1 (conductances_positive (unit_grid 2 2 2 false) (fun _ => 0) (fun _ => 0) (fun _ => 0)
                  (fun _ => 1%Z) (x_guarded (unit_grid 2 2 2 false)) 0 0 0 eq_refl
                  (fun _ => Rlt_0_1) (fun _ => Rlt_0_1) (fun _ => Rlt_0_1)));
    reflexivity.
Defined.

Lemma fdm3t_axial_ignores_y_witness :
  let gr2 := {| nz := 1; ny := 1; nx := 2; axial := true;
                dx := fun _ => 1; dy := fun _ => 7; DZ := fun _ => 1; Volume := fun _ => 1;
                gx := fun i => INR i; xm := fun i => INR i + / 2 |} in
  fdm3t_core spsolve_diag (unit_grid 1 1 2 true) [0; 1] (fun _ => 1) (fun _ => 1) (fun _ => 1)
    (fun _ => 1) (fun _ => 0) (fun i => INR i) (fun _ => 1%Z) 1
  = fdm3t_core spsolve_diag gr2 [0; 1] (fun _ => 1) (fun _ => 3) (fun _ => 1)
    (fun _ => 1) (fun _ => 0) (fun i => INR i) (fun _ => 1%Z) 1.
Proof.
  intros gr2.
  apply (fdm3t_axial_ignores_y spsolve_diag (unit_grid 1 1 2 true) gr2 [0; 1] (fun _ => 1)
           (fun _ => 1) (fun _ => 3) (fun _ => 1) (fun _ => 1) (fun _ => 0) (fun i => INR i)
           (fun _ => 1%Z) 1); reflexivity.
Defined.

Lemma fdm3t_inactive_HI_unused_witness :
  (forall j, inact IB_hole j = false -> 0 = (if (j =? 1)%nat then 9 else 0)) /\
  nth 1 (o_Phi (fdm3t_core spsolve_diag (unit_grid 1 1 2 false) [0; 1] (fun _ => 1) (fun _ => 1)
                  (fun _ => 1) (fun _ => 1) (fun _ => 0) (fun _ => 0) IB_hole 1)) (fun _ => NaN) 0%nat
  = nth 1 (o_Phi (fdm3t_core spsolve_diag (unit_grid 1 1 2 false) [0; 1] (fun _ => 1) (fun _ => 1)
                  (fun _ => 1) (fun _ => 1) (fun _ => 0) (fun j => if (j =? 1)%nat then 9 else 0)
                  IB_hole 1)) (fun _ => NaN) 0%nat.
Proof.
  assert (H : forall j, inact IB_hole j = false -> 0 = (if (j =? 1)%nat then 9 else 0)).
  { intros [|[|j]] Hj; try reflexivity. discriminate Hj. }
  split; [exact H|].
  apply (fdm3t_inactive_HI_unused spsolve_diag (unit_grid 1 1 2 false) [0; 1] (fun _ => 1)
           (fun _ => 1) (fun _ => 1) (fun _ => 1) (fun _ => 0) (fun _ => 0)
           (fun j => if (j =? 1)%nat then 9 else 0) IB_hole 1 1 0 H); lia.
Defined.

Lemma fdm3t_FQ_nonactive_unused_witness :
  (forall i, active IB_fix i = true -> 0 = (if (i =? 1)%nat then 4 else 0)) /\
  fdm3t_core spsolve_diag (unit_grid 1 1 2 false) [0; 1] (fun _ => 1) (fun _ => 1) (fun _ => 1)
    (fun _ => 1) (fun _ => 0) (fun _ => 0) IB_fix 1
  = fdm3t_core spsolve_diag (unit_grid 1 1 2 false) [0; 1] (fun _ => 1) (fun _ => 1) (fun _ => 1)
    (fun _ => 1) (fun i => if (i =? 1)%nat then 4 else 0) (fun _ => 0) IB_fix 1.
Proof.
  assert (H : forall i, active IB_fix i = true -> 0 = (if (i =? 1)%nat then 4 else 0)).
  { intros [|[|i]] Hi; try reflexivity. discriminate Hi. }
  split; [exact H|].
  exact (fdm3t_FQ_nonactive_unused spsolve_diag (unit_grid 1 1 2 false) [0; 1] (fun _ => 1)
           (fun _ => 1) (fun _ => 1) (fun _ => 1) (fun _ => 0) (fun i => if (i =? 1)%nat then 4 else 0)
           (fun _ => 0) IB_fix 1 H).
Defined.

Lemma fdm3t_uniform_steady_witness :
  exact_for spsolve_diag (unit_grid 1 1 1 false) [0; 1] (fun _ => 1) (fun _ => 1) (fun _ => 1)
    (fun _ => 1) (fun _ => 1%Z) 1 /\
  unique_for (unit_grid 1 1 1 false) [0; 1] (fun _ => 1) (fun _ => 1) (fun _ => 1)
    (fun _ => 1) (fun _ => 1%Z) 1 /\
  nth 1 (o_Phi (fdm3t_core spsolve_diag (unit_grid 1 1 1 false) [0; 1] (fun _ => 1) (fun _ => 1)
                  (fun _ => 1) (fun _ => 1) (fun _ => 0) (fun _ => 3) (fun _ => 1%Z) 1))
    (fun _ => NaN) 0%nat = Fin 3.
Proof.
  assert (Hex : exact_for spsolve_diag (unit_grid 1 1 1 false) [0; 1] (fun _ => 1) (fun _ => 1)
                  (fun _ => 1) (fun _ => 1) (fun _ => 1%Z) 1).
  { apply spsolve_diag_exact. intros dt Hdt i j Hi Hj _ _.
    simpl in Hdt. destruct Hdt as [<-|[]].
    destruct i as [|i]; [|unfold nod in Hi; simpl in Hi; lia].
    destruct j as [|j]; [|unfold nod in Hj; simpl in Hj; lia].
    eexists. split; [eval_model; reflexivity|]. split; [intros _; lra|intros H; congruence]. }
  assert (Hun : unique_for (unit_grid 1 1 1 false) [0; 1] (fun _ => 1) (fun _ => 1) (fun _ => 1)
                  (fun _ => 1) (fun _ => 1%Z) 1).
  { intros dt Hdt b x1 x2 H1 H2 i Hi _. simpl in Hdt. destruct Hdt as [<-|[]].
    destruct i as [|i]; [|unfold nod in Hi; simpl in Hi; lia].
    specialize (H1 0%nat ltac:(vm_compute; lia) eq_refl).
    specialize (H2 0%nat ltac:(vm_compute; lia) eq_refl).
    revert H1 H2. eval_model. intros H1 H2. lra. }
  split; [exact Hex|split; [exact Hun|]].
  apply (fdm3t_uniform_steady spsolve_diag (unit_grid 1 1 1 false) [0; 1] (fun _ => 1) (fun _ => 1)
           (fun _ => 1) (fun _ => 1) (fun _ => 0) (fun _ => 3) (fun _ => 1%Z) 1 3 Hex Hun);
    [intros; reflexivity|intros; reflexivity|simpl; lia|vm_compute; lia|reflexivity].
Defined.

Lemma get_psi_stream_witness :
  (2 <= List.length [0; 1])%nat /\ (0 < ny (unit_grid 1 1 3 false))%nat /\
  (0 < nz (unit_grid 1 1 3 false))%nat /\
  exists psi, get_psi (unit_grid 1 1 3 false)
                (fdm3t_core spsolve_diag (unit_grid 1 1 3 false) [0; 1] (fun _ => 1) (fun _ => 1)
                   (fun _ => 1) (fun _ => 1) (fun _ => 0) (fun i => INR i) (fun _ => 1%Z) 1)
              = Some psi /\ List.length psi = 2%nat.
Proof.
  split; [simpl; lia|split; [simpl; lia|split; [simpl; lia|]]].
  destruct (get_psi_stream spsolve_diag (unit_grid 1 1 3 false) [0; 1] (fun _ => 1) (fun _ => 1)
              (fun _ => 1) (fun _ => 1) (fun _ => 0) (fun i => INR i) (fun _ => 1%Z) 1
              ltac:(simpl; lia) ltac:(simpl; lia) ltac:(simpl; lia)) as (psi & Hp & Hl & _).
  exists psi. split; [exact Hp|exact Hl].
Defined.

Lemma Fdm3t_init_runs_witness :
  unpack_KhKv (KArr 0%nat) = inr (0%nat, 0%nat) /\
  shape (unit_heap 0%nat) = gshape (unit_grid 1 1 1 false) /\
  shape (unit_heap 2%nat) = gshape (unit_grid 1 1 1 false) /\
  shape (unit_heap 1%nat) = gshape (unit_grid 1 1 1 false) /\
  ishape unit_ibound = gshape (unit_grid 1 1 1 false) /\
  (0 < nz (unit_grid 1 1 1 false))%nat /\
  fst (Fdm3t_init spsolve_diag unit_heap (unit_grid 1 1 1 false) [0; 1] (KArr 0%nat) 1%nat 2%nat 3%nat unit_ibound (/ 2))
  = inr (fdm3t_core spsolve_diag (unit_grid 1 1 1 false) [0; 1]
           (fun i => clamp_val 1) (fun i => clamp_val 1) (fun i => clamp_val 1)
           (fun _ => 1) (bcast (unit_heap 2%nat)) (bcast (unit_heap 3%nat)) (idata unit_ibound) 1).
Proof.
  do 5 (split; [reflexivity|]). split; [cbn; lia|].
  destruct (Fdm3t_init_runs spsolve_diag unit_heap (unit_grid 1 1 1 false) [0; 1] (KArr 0%nat) 1%nat 2%nat 3%nat
              unit_ibound (/ 2) 0 0 eq_refl eq_refl eq_refl eq_refl eq_refl eq_refl
              ltac:(cbn; lia)) as [Hh Hr].
  rewrite Hr. cbv beta iota delta [broadcastable]. simpl (size _). simpl (nod _). cbn.
  rewrite !clamp_val_idem. reflexivity.
Defined.

Lemma Fdm3t_init_bad_kxyz_witness :
  List.length [0%nat; 1%nat; 2%nat; 3%nat] = 0%nat \/ (3 < List.length [0%nat; 1%nat; 2%nat; 3%nat])%nat /\
  Fdm3t_init spsolve_diag unit_heap (unit_grid 1 1 1 false) [0; 1] (KList [0; 1; 2; 3]%nat) 4 5 6
    unit_ibound 1
  = (inl (ValueError "Can't understand input kxyz, use (Kx, Kz) tuple"), unit_heap).
Proof.
  right. split; [simpl; lia|].
  apply (proj2 (Fdm3t_init_bad_kxyz spsolve_diag unit_heap (unit_grid 1 1 1 false) [0; 1]
                  [0; 1; 2; 3]%nat 4 5 6 unit_ibound 1 ltac:(right; simpl; lia))).
Defined.

Lemma Fdm3t_init_Ss_message_witness :
  shape (heap_bad_Ss 1%nat) <> gshape (unit_grid 1 1 1 false) /\
  Fdm3t_init spsolve_diag heap_bad_Ss (unit_grid 1 1 1 false) [0; 1] (KTuple [0; 2]%nat) 1 3 4
    unit_ibound 1
  = (inl (AssertionError "gr.shape != HI.shape"), heap_bad_Ss).
Proof.
  assert (Hne : shape (heap_bad_Ss 1%nat) <> gshape (unit_grid 1 1 1 false)) by discriminate.
  split; [exact Hne|].
  exact (Fdm3t_init_Ss_message spsolve_diag heap_bad_Ss (unit_grid 1 1 1 false) [0; 1]
           (KTuple [0; 2]%nat) 1 3 4 unit_ibound 1 0%nat 2%nat eq_refl eq_refl eq_refl eq_refl Hne).
Defined.

Lemma fdm3t_bad_kxyz_witness :
  List.length [0%nat; 1%nat] <> 3%nat /\
  exists msg, fdm3t spsolve_diag unit_heap (unit_grid 1 1 1 false) [0; 1] (KTuple [0; 1]%nat) 2 3 4
                unit_ibound 1 = (inl (ValueError msg), unit_heap).
Proof.
  split; [discriminate|].
  apply (proj2 (fdm3t_bad_kxyz spsolve_diag unit_heap (unit_grid 1 1 1 false) [0; 1] [0; 1]%nat 2 3 4
                  unit_ibound 1)). discriminate.
Defined.
Lemma fdm3t_shape_assertions_witness :
  let fields := [("kx", shape (unit_heap 0%nat)); ("ky", shape (unit_heap 0%nat)); ("kz", shape (unit_heap 0%nat));
                 ("Ss", shape (unit_heap 1%nat))]%string in
  let res := fdm3t spsolve_diag unit_heap (unit_grid 1 1 1 false) [0; 1] (KArr 0) 1 2 3 unit_ibound 1 in
  (forall msg, fst res = inl (AssertionError msg) ->
     snd res = unit_heap /\
     exists name s, In (name, s) fields /\ s <> gshape (unit_grid 1 1 1 false)
                    /\ msg = shape_msg name s (gshape (unit_grid 1 1 1 false))) /\
  ((exists name s, In (name, s) fields /\ s <> gshape (unit_grid 1 1 1 false)) ->
     exists msg, fst res = inl (AssertionError msg)).
Proof.
  apply (fdm3t_shape_assertions spsolve_diag unit_heap (unit_grid 1 1 1 false) [0; 1] (KArr 0) 1 2 3
           unit_ibound 1 0 0 0).
  reflexivity.
Defined.

Lemma fdm3t_zero_dimension_witness :
  fst (fdm3t spsolve_diag (fun _ => mkArr [0; 1; 1]%nat (fun _ => 1)) (unit_grid 0 1 1 false) [0; 1]
         (KArr 0) 1 2 3 (mkIArr [0; 1; 1]%nat (fun _ => 1%Z)) 1)
  = inl (ValueError "negative dimensions are not allowed").
Proof.
  apply (proj1 (fdm3t_zero_dimension spsolve_diag (fun _ => mkArr [0; 1; 1]%nat (fun _ => 1))
                  (unit_grid 0 1 1 false) [0; 1] (KArr 0) 1 2 3 (mkIArr [0; 1; 1]%nat (fun _ => 1%Z)) 1
                  0 0 0 eq_refl (conj eq_refl (conj eq_refl eq_refl)) eq_refl eq_refl
                  (or_introl eq_refl))).
  left. reflexivity.
Defined.

Lemma fdm3t_one_cell_FQ_witness :
  fst (fdm3t spsolve_diag heap_bad_Ss (unit_grid 1 1 1 false) [0; 1] (KArr 0) 2 1 3 unit_ibound 1)
  = inl (IndexError "boolean index did not match indexed array").
Proof.
  apply (fdm3t_one_cell_FQ spsolve_diag heap_bad_Ss (unit_grid 1 1 1 false) [0; 1] (KArr 0) 2 1 3
           unit_ibound 1 0 0 0); try reflexivity;
    first [split; [reflexivity|split; reflexivity] | cbn; lia].
Defined.

